(** * Directional A* search ("forward or turn right" maze solver)

    A shallow embedding of [astar] from [solution1.py] and from
    [maze_solution_group_eltonys.py], together with the properties of the
    search that the design document states.

    - Coordinates and directions are Python tuples of ints: pairs of [Z].
    - [Node] objects are immutable once they sit in the open or the closed
      list, so a node is a value that carries its parent chain.
    - The [while] loop is run by a fuel-indexed iterator over one loop body
      ([iteration]); [None] means the fuel ran out before the loop ended.
    - Exceptions the body can raise ([IndexError] on a short row, [KeyError]
      on the turn table) are results of their own. *)

From Stdlib Require Import ZArith List Bool Lia Sorted.
From Stdlib Require String.
Import ListNotations.

Local Open Scope Z_scope.
Local Set Warnings "-register-all".

(** ** Data model *)

Definition Pos : Type := (Z * Z)%type.
Definition Dir : Type := (Z * Z)%type.

Inductive Node : Type :=
  mkNode { parent : option Node;
           position : Pos;
           direction : option Dir;
           g : Z;
           h : Z;
           f : Z }.

(** [Node.__init__]: the three scores start at 0. *)
Definition Node_init (parent : option Node) (position : Pos)
    (direction : option Dir) : Node :=
  mkNode parent position direction 0 0 0.

Definition pos_eqb (a b : Pos) : bool :=
  (fst a =? fst b) && (snd a =? snd b).

Definition dir_eqb (a b : option Dir) : bool :=
  match a, b with
  | None, None => true
  | Some x, Some y => pos_eqb x y
  | _, _ => false
  end.

(** [Node.__eq__]: same position and same direction of arrival. *)
Definition Node_eq (self other : Node) : bool :=
  pos_eqb (position self) (position other)
  && dir_eqb (direction self) (direction other).

(** [x in lst] for a list of nodes. *)
Definition Node_in (x : Node) (lst : list Node) : bool :=
  existsb (fun e => Node_eq x e) lst.

(** [Node.__hash__]: the hash of the pair (position, direction).  Python's
    built-in [hash] on such a tuple is a parameter. *)
Section Hashing.

Variable hash : Pos * option Dir -> Z.

Definition Node_hash (self : Node) : Z :=
  hash (position self, direction self).

End Hashing.

Inductive exn : Type := IndexError | KeyError.

Inductive result : Type :=
| Path (path : list Pos)      (* the returned list of coordinates *)
| NoPath                      (* [return None] *)
| Raised (e : exn).           (* an exception left the function *)

(** Results of code that may raise. *)
Inductive res (A : Type) : Type :=
| Ok (a : A)
| Raise (e : exn).
Arguments Ok {A} a.
Arguments Raise {A} e.

Definition bind {A B} (m : res A) (k : A -> res B) : res B :=
  match m with
  | Ok a => k a
  | Raise e => Raise e
  end.

Notation "x <- m ;; k" := (bind m (fun x => k))
  (at level 61, m at next level, right associativity).

(** ** Constants of [astar] *)

Definition UP : Dir := (-1, 0).
Definition RIGHT : Dir := (0, 1).
Definition DOWN : Dir := (1, 0).
Definition LEFT : Dir := (0, -1).

Definition DIRECTIONS : list Dir := [UP; RIGHT; DOWN; LEFT].

(** The dict [turn_right_map], as its list of items. *)
Definition turn_right_map : list (Dir * Dir) :=
  [(UP, RIGHT); (RIGHT, DOWN); (DOWN, LEFT); (LEFT, UP)].

(** [d[key]]: the value of the first item with that key, [KeyError] when
    there is none. *)
Fixpoint dict_get (d : list (Dir * Dir)) (key : Dir) : res Dir :=
  match d with
  | [] => Raise KeyError
  | (k, v) :: rest => if pos_eqb key k then Ok v else dict_get rest key
  end.

(** ** The grid *)

Definition Maze : Type := list (list Z).

Definition len {A} (l : list A) : Z := Z.of_nat (length l).

(** [0 <= p[0] < len(maze) and 0 <= p[1] < len(maze[0])].  The conjunction
    short-circuits: [maze[0]] is read only after [p[0] < len(maze)] held,
    that is on a non-empty [maze], where [hd [] maze] is [maze[0]]. *)
Definition within_range (maze : Maze) (p : Pos) : bool :=
  (0 <=? fst p) && (fst p <? len maze)
  && ((0 <=? snd p) && (snd p <? len (hd [] maze))).

(** [lst[i]] for an index known to be non-negative. *)
Definition index {A} (lst : list A) (i : Z) : res A :=
  match nth_error lst (Z.to_nat i) with
  | Some x => Ok x
  | None => Raise IndexError
  end.

(** [maze[p[0]][p[1]]]. *)
Definition cell (maze : Maze) (p : Pos) : res Z :=
  row <- index maze (fst p) ;; index row (snd p).

Definition add_pos (p : Pos) (d : Dir) : Pos :=
  (fst p + fst d, snd p + snd d).

(** The Manhattan distance used for [child.h]. *)
Definition manhattan (p q : Pos) : Z :=
  Z.abs (fst p - fst q) + Z.abs (snd p - snd q).

(** ** Pieces of the loop body *)

(** The scan [for index, item in enumerate(open_list)] that keeps the first
    entry of least [f]: [items] is what is left to scan, [index] its offset. *)
Fixpoint select_min (items : list Node) (index : nat)
    (current_node : Node) (current_index : nat) : Node * nat :=
  match items with
  | [] => (current_node, current_index)
  | item :: rest =>
      if f item <? f current_node
      then select_min rest (S index) item index
      else select_min rest (S index) current_node current_index
  end.

(** [lst.pop(i)], keeping the list that remains. *)
Fixpoint pop {A} (lst : list A) (i : nat) : list A :=
  match lst, i with
  | [], _ => []
  | _ :: rest, O => rest
  | x :: rest, S j => x :: pop rest j
  end.

(** The path rebuilt by following [parent] from a node: goal first. *)
Fixpoint chain (current : Node) : list Pos :=
  position current ::
  match parent current with
  | None => []
  | Some p => chain p
  end.

(** The loop [for move_direction in possible_moves] that fills [children]. *)
Fixpoint gen_children (maze : Maze) (current_node : Node)
    (possible_moves : list Dir) (children : list Node) : res (list Node) :=
  match possible_moves with
  | [] => Ok children
  | move_direction :: rest =>
      let node_position := add_pos (position current_node) move_direction in
      if negb (within_range maze node_position)
      then gen_children maze current_node rest children
      else
        c <- cell maze node_position ;;
        if negb (c =? 0)
        then gen_children maze current_node rest children
        else
          let new_node :=
            Node_init (Some current_node) node_position (Some move_direction) in
          gen_children maze current_node rest (children ++ [new_node])
  end.

(** The three assignments [child.g], [child.h], [child.f]. *)
Definition set_scores (end_node current_node child : Node) : Node :=
  let g' := g current_node + 1 in
  let h' := manhattan (position child) (position end_node) in
  mkNode (parent child) (position child) (direction child) g' h' (g' + h').

(** The scan of the open list that sets [is_in_open_list]. *)
Definition is_in_open_list (child : Node) (open_list : list Node) : bool :=
  existsb (fun open_node => Node_eq child open_node && (g open_node <=? g child))
          open_list.

(** One round of [for child in children]. *)
Definition process_child (end_node current_node : Node)
    (closed_list open_list : list Node) (child : Node) : list Node :=
  if Node_in child closed_list then open_list
  else
    let child := set_scores end_node current_node child in
    if is_in_open_list child open_list then open_list
    else open_list ++ [child].

Definition process_children (end_node current_node : Node)
    (closed_list : list Node) (children open_list : list Node) : list Node :=
  fold_left (process_child end_node current_node closed_list) children open_list.

(** What one pass through the [while] body leaves behind. *)
Inductive outcome : Type :=
| Running (open_list closed_list : list Node)
| Done (r : result).

(** ** The driver [main] *)

Module Messages.
Import String.
Local Open Scope string_scope.
Definition path_found : string := "Path found:".
Definition no_path_found : string := "No path found!".
End Messages.

(** What a call of [print] writes: a message, or the list of coordinates. *)
Inductive printed : Type :=
| print_str (s : String.string)
| print_path (path : list Pos).

(** The truth value [if path:] gives to what [astar] returned: [None] and
    the empty list are false, any other list is true. *)
Definition truth_value (path : result) : bool :=
  match path with
  | Path (_ :: _) => true
  | _ => false
  end.

Definition maze1 : Maze :=
  [[0; 0; 0; 0; 0; 0; 0; 0; 0; 0; 0; 0; 0];
   [0; 1; 0; 1; 0; 1; 1; 1; 0; 1; 1; 1; 0];
   [0; 1; 0; 0; 0; 0; 0; 0; 0; 0; 0; 0; 0];
   [0; 1; 0; 1; 0; 1; 1; 1; 1; 1; 0; 1; 0];
   [0; 1; 0; 1; 0; 0; 0; 0; 0; 0; 0; 1; 0];
   [0; 1; 0; 1; 1; 1; 0; 1; 0; 1; 0; 1; 0];
   [0; 0; 0; 0; 0; 0; 0; 0; 0; 1; 0; 1; 0];
   [1; 1; 0; 1; 1; 1; 0; 1; 1; 1; 0; 1; 0];
   [1; 1; 0; 0; 0; 0; 0; 0; 0; 0; 0; 1; 0];
   [1; 1; 0; 1; 1; 1; 1; 1; 0; 1; 0; 1; 0];
   [1; 1; 0; 0; 0; 0; 0; 0; 0; 0; 0; 0; 0];
   [1; 1; 0; 1; 1; 1; 1; 1; 1; 1; 0; 1; 1]].

Definition start1 : Pos := (11, 10).
Definition end1 : Pos := (11, 2).

Module Solution1.

(** [solution1.py], lines 88-103: the start node gets a copy of
    [DIRECTIONS], built by appending; the others get forward and right. *)
Definition possible_moves (current_node : Node) : res (list Dir) :=
  match direction current_node with
  | None => Ok (fold_left (fun moves move_dir => moves ++ [move_dir]) DIRECTIONS [])
  | Some current_direction =>
      let forward_direction := current_direction in
      turn_right_direction <- dict_get turn_right_map current_direction ;;
      Ok [forward_direction; turn_right_direction]
  end.

(** The body of [while len(open_list) > 0], lines 65-139. *)
Definition iteration (maze : Maze) (end_node : Node)
    (open_list closed_list : list Node) : outcome :=
  match open_list with
  | [] => Done NoPath
  | first :: _ =>
      let (current_node, current_index) := select_min open_list 0 first 0 in
      let open_list := pop open_list current_index in
      let closed_list := closed_list ++ [current_node] in
      if pos_eqb (position current_node) (position end_node)
      then Done (Path (rev (chain current_node)))
      else
        match possible_moves current_node with
        | Raise e => Done (Raised e)
        | Ok moves =>
            match gen_children maze current_node moves [] with
            | Raise e => Done (Raised e)
            | Ok children =>
                Running (process_children end_node current_node closed_list
                           children open_list)
                        closed_list
            end
        end
  end.

Fixpoint loop (fuel : nat) (maze : Maze) (end_node : Node)
    (open_list closed_list : list Node) : option result :=
  match fuel with
  | O => None
  | S fuel' =>
      match iteration maze end_node open_list closed_list with
      | Done r => Some r
      | Running open_list' closed_list' =>
          loop fuel' maze end_node open_list' closed_list'
      end
  end.

(** [astar(maze, start, end)], run for at most [fuel] passes of the loop. *)
Definition astar (fuel : nat) (maze : Maze) (start end_ : Pos) : option result :=
  let start_node := Node_init None start None in
  let end_node := Node_init None end_ None in
  loop fuel maze end_node [start_node] [].


(** [main()], lines 144-169: the search on [maze1] and the two ways it reports.
    An exception of [astar] leaves [main] as it is. *)
Definition main (fuel : nat) : option (res (list printed)) :=
  match astar fuel maze1 start1 end1 with
  | None => None
  | Some (Raised e) => Some (Raise e)
  | Some path =>
      if truth_value path
      then Some (Ok [print_str Messages.path_found;
                     print_path (match path with Path l => l | _ => [] end)])
      else Some (Ok [print_str Messages.no_path_found])
  end.

End Solution1.

Module GroupEltonys.

(** [maze_solution_group_eltonys.py], lines 97-109: the start node's
    [possible_moves] is the list [DIRECTIONS] itself (it is only read). *)
Definition possible_moves (current_node : Node) : res (list Dir) :=
  match direction current_node with
  | None => Ok DIRECTIONS
  | Some current_direction =>
      let forward_direction := current_direction in
      turn_right_direction <- dict_get turn_right_map current_direction ;;
      Ok [forward_direction; turn_right_direction]
  end.

(** The body of [while len(open_list) > 0], lines 72-153. *)
Definition iteration (maze : Maze) (end_node : Node)
    (open_list closed_list : list Node) : outcome :=
  match open_list with
  | [] => Done NoPath
  | first :: _ =>
      let (current_node, current_index) := select_min open_list 0 first 0 in
      let open_list := pop open_list current_index in
      let closed_list := closed_list ++ [current_node] in
      if pos_eqb (position current_node) (position end_node)
      then Done (Path (rev (chain current_node)))
      else
        match possible_moves current_node with
        | Raise e => Done (Raised e)
        | Ok moves =>
            match gen_children maze current_node moves [] with
            | Raise e => Done (Raised e)
            | Ok children =>
                Running (process_children end_node current_node closed_list
                           children open_list)
                        closed_list
            end
        end
  end.

Fixpoint loop (fuel : nat) (maze : Maze) (end_node : Node)
    (open_list closed_list : list Node) : option result :=
  match fuel with
  | O => None
  | S fuel' =>
      match iteration maze end_node open_list closed_list with
      | Done r => Some r
      | Running open_list' closed_list' =>
          loop fuel' maze end_node open_list' closed_list'
      end
  end.

Definition astar (fuel : nat) (maze : Maze) (start end_ : Pos) : option result :=
  let start_node := Node_init None start None in
  let end_node := Node_init None end_ None in
  loop fuel maze end_node [start_node] [].


(** [main()], lines 157-181: the search on [maze1] and the two ways it reports.
    An exception of [astar] leaves [main] as it is. *)
Definition main (fuel : nat) : option (res (list printed)) :=
  match astar fuel maze1 start1 end1 with
  | None => None
  | Some (Raised e) => Some (Raise e)
  | Some path =>
      if truth_value path
      then Some (Ok [print_str Messages.path_found;
                     print_path (match path with Path l => l | _ => [] end)])
      else Some (Ok [print_str Messages.no_path_found])
  end.

End GroupEltonys.

(** ** Vocabulary of the properties *)

(** The search state of a node: where it is and how it got there. *)
Definition state (n : Node) : Pos * option Dir := (position n, direction n).

(** A cell the search may step on: inside the range test and holding 0. *)
Definition free (maze : Maze) (p : Pos) : Prop :=
  within_range maze p = true /\ cell maze p = Ok 0.

(** All rows as long as the first. *)
Definition rectangular (maze : Maze) : Prop :=
  forallb (fun row => (length row =? length (hd [] maze))%nat) maze = true.

(** Every cell marker is 0 (free) or 1 (wall). *)
Definition wall_free_grid (maze : Maze) : Prop :=
  forallb (forallb (fun v => (v =? 0) || (v =? 1))) maze = true.

(** The design document's clockwise successor: Up, Right, Down, Left, Up. *)
Definition turnRight (hd : Dir) : Dir :=
  if pos_eqb hd UP then RIGHT
  else if pos_eqb hd RIGHT then DOWN
  else if pos_eqb hd DOWN then LEFT
  else UP.

(** The design document's [successorHeadings]. *)
Definition successorHeadings (hd : option Dir) : list Dir :=
  match hd with
  | None => [UP; RIGHT; DOWN; LEFT]
  | Some d => [d; turnRight d]
  end.

Definition step_of (p q : Pos) : Dir := (fst q - fst p, snd q - snd p).

(** A walk that continues from [p], reached with heading [prev], through the
    coordinates [rest]: every move is an allowed heading into a free cell. *)
Fixpoint legal_from (maze : Maze) (prev : option Dir) (p : Pos)
    (rest : list Pos) : Prop :=
  match rest with
  | [] => True
  | q :: rest' =>
      In (step_of p q) (successorHeadings prev) /\ free maze q
      /\ legal_from maze (Some (step_of p q)) q rest'
  end.

(** A start-to-goal path under the forward / turn-right rule. *)
Definition constrained_path (maze : Maze) (start end_ : Pos)
    (path : list Pos) : Prop :=
  exists rest, path = start :: rest /\ legal_from maze None start rest
               /\ last path start = end_.

(** Number of moves of a path. *)
Definition moves_of (path : list Pos) : Z := len path - 1.

(** Where and with which heading a walk ends. *)
Fixpoint final (prev : option Dir) (p : Pos) (rest : list Pos)
    : Pos * option Dir :=
  match rest with
  | [] => (p, prev)
  | q :: rest' => final (Some (step_of p q)) q rest'
  end.

(** The open and closed lists of [solution1.py] after [n] complete passes
    of the loop, when it is still running then. *)
Fixpoint lists_after (n : nat) (maze : Maze) (end_node : Node)
    (open_list closed_list : list Node) : option (list Node * list Node) :=
  match n with
  | O => Some (open_list, closed_list)
  | S n' =>
      match Solution1.iteration maze end_node open_list closed_list with
      | Done _ => None
      | Running open_list' closed_list' =>
          lists_after n' maze end_node open_list' closed_list'
      end
  end.

(** A node followed by its parent, its parent's parent, and so on. *)
Fixpoint ancestors (current : Node) : list Node :=
  current ::
  match parent current with
  | None => []
  | Some p => ancestors p
  end.

(** The (position, heading) states a walk goes through, the first one
    included. *)
Fixpoint walk_states (prev : option Dir) (p : Pos) (rest : list Pos)
    : list (Pos * option Dir) :=
  (p, prev) ::
  match rest with
  | [] => []
  | q :: rest' => walk_states (Some (step_of p q)) q rest'
  end.

Definition states_of_path (path : list Pos) : list (Pos * option Dir) :=
  match path with
  | [] => []
  | p :: rest => walk_states None p rest
  end.

(** The node that line 118 creates for a move. *)
Definition child_of (current_node : Node) (d : Dir) : Node :=
  Node_init (Some current_node) (add_pos (position current_node) d) (Some d).

(** Number of (position, direction) states of a grid, the start state
    included. *)
Definition state_bound (maze : Maze) : nat :=
  S (4 * (length maze * length (hd [] maze))).

(** ** Inputs used as examples *)

Definition scenario_B : Maze := [[0; 0; 0]; [1; 1; 0]; [0; 0; 0]].

Definition scenario_B_path : list Pos :=
  [(0, 0); (0, 1); (0, 2); (1, 2); (2, 2); (2, 1); (2, 0)].

(** An open-list entry with a given [f], for the minimum scan. *)
Definition node_with_f (p : Pos) (v : Z) : Node := mkNode None p None 0 0 v.

(** An open list with two entries of least [f]. *)
Definition three_open : list Node :=
  [node_with_f (0, 0) 5; node_with_f (0, 1) 3; node_with_f (0, 2) 3].

Definition scenario_B_after_5 : list Node * list Node :=
  match lists_after 5 scenario_B (Node_init None (2, 0) None)
          [Node_init None (0, 0) None] [] with
  | Some lists => lists
  | None => ([], [])
  end.

Definition scenario_B_after_3 : list Node * list Node :=
  match lists_after 3 scenario_B (Node_init None (2, 0) None)
          [Node_init None (0, 0) None] [] with
  | Some lists => lists
  | None => ([], [])
  end.

(** The child of the start of scenario B reached by Right, Right, Down. *)
Definition scenario_B_open_node : Node :=
  let end_node := Node_init None (2, 0) None in
  let n0 := Node_init None (0, 0) None in
  let n1 := set_scores end_node n0 (child_of n0 RIGHT) in
  let n2 := set_scores end_node n1 (child_of n1 RIGHT) in
  set_scores end_node n2 (child_of n2 DOWN).

(** ** Inputs the design document calls invalid *)



(** ** Nodes built by a run, and the state graph they live in *)

Section Search.

Variable maze : Maze.
Variables start end_ : Pos.

Local Notation "'start_node'" := (Node_init None start None).
Local Notation "'end_node'" := (Node_init None end_ None).

(** The nodes a run can create: the start node, and scored children of
    such nodes along an allowed move into a free cell. *)
Inductive wf_node : Node -> Prop :=
| wf_start : wf_node start_node
| wf_child (p : Node) (d : Dir) :
    wf_node p ->
    In d (successorHeadings (direction p)) ->
    free maze (add_pos (position p) d) ->
    wf_node (set_scores end_node p (child_of p d)).

(** [reach s k]: the state [s] can be reached from the start state by [k]
    allowed moves through free cells. *)
Inductive reach : Pos * option Dir -> Z -> Prop :=
| reach_start : reach (start, None) 0
| reach_move (p : Pos) (od : option Dir) (k : Z) (d : Dir) :
    reach (p, od) k ->
    In d (successorHeadings od) ->
    free maze (add_pos p d) ->
    reach (add_pos p d, Some d) (k + 1).

Definition heading_ok (od : option Dir) : Prop :=
  od = None \/ exists d, od = Some d /\ In d DIRECTIONS.

(** ** The loop invariant *)

(** Where the move that produced a node started from. *)
Definition origin (n : Node) : Pos :=
  match direction n with
  | Some d => (fst (position n) - fst d, snd (position n) - snd d)
  | None => position n
  end.

(** The open list, relative to the largest [f] popped so far ([F]) and to
    the closed list. *)
Record open_ok (F : Z) (closed_list open_list : list Node) : Prop := {
  oo_wf : forall n, In n open_list -> wf_node n;
  oo_dir : forall n, In n open_list -> direction n <> None;
  oo_f : forall n, In n open_list -> F <= f n;
  oo_key : forall n, In n open_list ->
             g n <= 1 \/ g n - 1 + manhattan (origin n) end_ <= F;
  oo_nodup : NoDup (map state open_list);
  oo_disj : forall o c, In o open_list -> In c closed_list -> state o <> state c
}.

Record closed_ok (closed_list : list Node) : Prop := {
  co_wf : forall c, In c closed_list -> wf_node c;
  co_nodup : NoDup (map state closed_list);
  co_goal : forall c, In c closed_list -> position c <> end_;
  co_opt : forall c k, In c closed_list -> reach (state c) k -> g c <= k;
  co_start : In start_node closed_list
}.

(** Every allowed move out of the closed node [c] leads to a state that is
    closed or waits in the open list at a cost no worse than through [c]. *)
Definition expanded (closed_list open_list : list Node) (c : Node) : Prop :=
  forall d, In d (successorHeadings (direction c)) ->
            free maze (add_pos (position c) d) ->
            In (add_pos (position c) d, Some d) (map state closed_list)
            \/ exists o, In o open_list
                         /\ state o = (add_pos (position c) d, Some d)
                         /\ g o <= g c + 1.

Definition searching (open_list closed_list : list Node) : Prop :=
  exists F, open_ok F closed_list open_list
            /\ closed_ok closed_list
            /\ forall c, In c closed_list -> expanded closed_list open_list c.

(** The invariant of the [while] loop. *)
Definition Inv (open_list closed_list : list Node) : Prop :=
  (open_list = [start_node] /\ closed_list = [])
  \/ searching open_list closed_list.

(** ** The finite state space *)

Definition cells : list Pos :=
  list_prod (map Z.of_nat (seq 0 (length maze)))
            (map Z.of_nat (seq 0 (length (hd [] maze)))).

Definition universe : list (Pos * option Dir) :=
  (start, None)
  :: map (fun pd : Pos * Dir => (fst pd, Some (snd pd)))
         (list_prod cells DIRECTIONS).

(** ** Elementary facts *)

Lemma pos_eqb_eq (a b : Pos) : pos_eqb a b = true <-> a = b.
Proof.
  destruct a as [a1 a2], b as [b1 b2]; unfold pos_eqb; simpl.
  rewrite andb_true_iff, !Z.eqb_eq. split.
  - intros [-> ->]; reflexivity.
  - intros E; inversion E; auto.
Qed.

Lemma pos_eqb_refl (a : Pos) : pos_eqb a a = true.
Proof. apply pos_eqb_eq; reflexivity. Qed.

Lemma pos_eqb_neq (a b : Pos) : pos_eqb a b = false <-> a <> b.
Proof.
  rewrite <- pos_eqb_eq. destruct (pos_eqb a b); split; congruence.
Qed.

Lemma dir_eqb_eq (a b : option Dir) : dir_eqb a b = true <-> a = b.
Proof.
  destruct a as [x|], b as [y|]; simpl; try (split; congruence).
  rewrite pos_eqb_eq. split; congruence.
Qed.

Lemma Node_eq_state (a b : Node) : Node_eq a b = true <-> state a = state b.
Proof.
  unfold Node_eq, state. rewrite andb_true_iff, pos_eqb_eq, dir_eqb_eq.
  split; [intros [-> ->]; reflexivity | intros E; inversion E; auto].
Qed.

Lemma Node_in_state (x : Node) (lst : list Node) :
  Node_in x lst = true <-> In (state x) (map state lst).
Proof.
  unfold Node_in. rewrite existsb_exists, in_map_iff. split.
  - intros (e & He & E). exists e. apply Node_eq_state in E. auto.
  - intros (e & E & He). exists e. split; auto. apply Node_eq_state; auto.
Qed.

Lemma in_DIRECTIONS (d : Dir) :
  In d DIRECTIONS <-> d = UP \/ d = RIGHT \/ d = DOWN \/ d = LEFT.
Proof. unfold DIRECTIONS; simpl; intuition congruence. Qed.

Lemma turnRight_DIRECTIONS (d : Dir) : In (turnRight d) DIRECTIONS.
Proof.
  unfold turnRight.
  repeat match goal with |- context [if ?b then _ else _] => destruct b end;
    apply in_DIRECTIONS; auto.
Qed.

Lemma dict_get_turn_right (d : Dir) :
  In d DIRECTIONS -> dict_get turn_right_map d = Ok (turnRight d).
Proof.
  intros H; apply in_DIRECTIONS in H.
  destruct H as [-> | [-> | [-> | ->]]]; reflexivity.
Qed.

Lemma manhattan_nonneg (p q : Pos) : 0 <= manhattan p q.
Proof. unfold manhattan; lia. Qed.

Lemma manhattan_same (p : Pos) : manhattan p p = 0.
Proof. unfold manhattan; lia. Qed.

(** The heuristic is consistent: one move changes it by at most one. *)
Lemma manhattan_step (p e : Pos) (d : Dir) :
  In d DIRECTIONS ->
  manhattan p e <= 1 + manhattan (add_pos p d) e.
Proof.
  intros H; apply in_DIRECTIONS in H.
  destruct p as [r c], e as [er ec].
  destruct H as [-> | [-> | [-> | ->]]];
    unfold manhattan, add_pos, UP, RIGHT, DOWN, LEFT; cbn [fst snd]; lia.
Qed.

Lemma step_of_add (p : Pos) (d : Dir) : step_of p (add_pos p d) = d.
Proof.
  destruct p, d; unfold step_of, add_pos; simpl; f_equal; lia.
Qed.

Lemma add_step_of (p q : Pos) : add_pos p (step_of p q) = q.
Proof.
  destruct p, q; unfold step_of, add_pos; simpl; f_equal; lia.
Qed.

Lemma add_pos_neq (p : Pos) (d : Dir) : In d DIRECTIONS -> add_pos p d <> p.
Proof.
  intros H E; apply in_DIRECTIONS in H. destruct p as [r c].
  destruct H as [-> | [-> | [-> | ->]]];
    unfold add_pos, UP, RIGHT, DOWN, LEFT in E; cbn [fst snd] in E;
    inversion E; lia.
Qed.

(** ** The minimum scan and [pop] *)

(** Scanning on from a prefix [pre ++ cur :: mid] whose leftmost least
    entry is [cur] ends on the leftmost least entry of the whole list. *)
Lemma select_min_scan (items pre mid : list Node) (cur n : Node) (i : nat) :
  (forall x, In x pre -> f cur < f x) ->
  (forall x, In x mid -> f cur <= f x) ->
  select_min items (length (pre ++ cur :: mid)) cur (length pre) = (n, i) ->
  exists pre' post',
    pre ++ cur :: mid ++ items = pre' ++ n :: post'
    /\ length pre' = i
    /\ (forall x, In x pre' -> f n < f x)
    /\ (forall x, In x post' -> f n <= f x).
Proof.
  revert pre mid cur.
  induction items as [|item rest IH]; intros pre mid cur Hpre Hmid H; simpl in H.
  - inversion H; subst. exists pre, mid. rewrite app_nil_r. auto.
  - destruct (f item <? f cur) eqn:E.
    + apply Z.ltb_lt in E.
      specialize (IH (pre ++ cur :: mid) [] item).
      replace (length ((pre ++ cur :: mid) ++ [item]))
        with (S (length (pre ++ cur :: mid))) in IH
        by (rewrite (length_app (pre ++ cur :: mid)); simpl; lia).
      destruct IH as (pre' & post' & E1 & E2 & E3 & E4); auto.
      * intros x Hx. apply in_app_or in Hx. destruct Hx as [Hx | [<- | Hx]].
        -- specialize (Hpre x Hx). lia.
        -- exact E.
        -- specialize (Hmid x Hx). lia.
      * intros x [].
      * exists pre', post'. repeat split; auto.
        rewrite <- E1. rewrite <- !app_assoc. reflexivity.
    + apply Z.ltb_ge in E.
      specialize (IH pre (mid ++ [item]) cur).
      replace (length (pre ++ cur :: mid ++ [item]))
        with (S (length (pre ++ cur :: mid))) in IH
        by (rewrite !length_app; simpl; rewrite length_app; simpl; lia).
      destruct IH as (pre' & post' & E1 & E2 & E3 & E4); auto.
      * intros x Hx. apply in_app_or in Hx. destruct Hx as [Hx | [<- | []]]; auto.
      * exists pre', post'. repeat split; auto.
        rewrite <- E1. rewrite <- app_assoc. reflexivity.
Qed.

(** The scan of lines 68-73, started as the code starts it. *)
Lemma select_min_spec (first : Node) (rest : list Node) (n : Node) (i : nat) :
  select_min (first :: rest) 0 first 0 = (n, i) ->
  exists pre post,
    first :: rest = pre ++ n :: post
    /\ length pre = i
    /\ (forall x, In x pre -> f n < f x)
    /\ (forall x, In x post -> f n <= f x).
Proof.
  simpl. rewrite Z.ltb_irrefl. intros H.
  apply (select_min_scan rest [] [] first n i) in H; simpl; tauto.
Qed.

Lemma pop_middle {A} (pre post : list A) (x : A) :
  pop (pre ++ x :: post) (length pre) = pre ++ post.
Proof. induction pre; simpl; congruence. Qed.

(** ** Generated children *)

Lemma gen_children_spec (cur : Node) (moves : list Dir) :
  forall acc children,
    gen_children maze cur moves acc = Ok children ->
    forall c, In c children <->
              In c acc \/
              exists d, In d moves /\ free maze (add_pos (position cur) d)
                        /\ c = child_of cur d.
Proof.
  induction moves as [|d rest IH]; intros acc children H c; simpl in H.
  - inversion H; subst. split; [auto|]. intros [?|(d & [] & _)]; auto.
  - destruct (within_range maze (add_pos (position cur) d)) eqn:R; simpl in H.
    + destruct (cell maze (add_pos (position cur) d)) as [v|e] eqn:C;
        simpl in H; [|discriminate].
      destruct (v =? 0) eqn:V; simpl in H.
      * apply Z.eqb_eq in V; subst v.
        rewrite (IH _ _ H c). rewrite in_app_iff. simpl. split.
        -- intros [[?|[<-|[]]]|(d' & ? & ? & ?)];
             [auto | right; exists d; simpl; unfold free; repeat split; auto | right; exists d'; simpl; auto].
        -- intros [?|(d' & [<-|?] & Hf & ->)];
             [auto | left; right; left; reflexivity | right; exists d'; simpl; auto].
      * apply Z.eqb_neq in V.
        rewrite (IH _ _ H c). split.
        -- intros [?|(d' & ? & ? & ?)]; [auto | right; exists d'; simpl; auto].
        -- intros [?|(d' & [<-|?] & Hf & ->)];
             [auto | destruct Hf as [_ Hf]; congruence | right; exists d'; simpl; auto].
    + rewrite (IH _ _ H c). split.
      * intros [?|(d' & ? & ? & ?)]; [auto | right; exists d'; simpl; auto].
      * intros [?|(d' & [<-|?] & Hf & ->)];
          [auto | destruct Hf as [Hf _]; congruence | right; exists d'; simpl; auto].
Qed.

Lemma nth_error_in_range {A} (l : list A) (i : Z) :
  0 <= i < len l -> exists x, nth_error l (Z.to_nat i) = Some x /\ In x l.
Proof.
  unfold len. intros H.
  destruct (nth_error l (Z.to_nat i)) as [x|] eqn:E.
  - exists x. split; auto. eapply nth_error_In; eauto.
  - apply nth_error_None in E. lia.
Qed.

Lemma rectangular_rows (row : list Z) :
  rectangular maze -> In row maze -> length row = length (hd [] maze).
Proof.
  unfold rectangular. rewrite forallb_forall. intros H Hin.
  apply Nat.eqb_eq. apply H. exact Hin.
Qed.

(** On a rectangular grid a position that passed the range test can be read. *)
Lemma cell_in_range (p : Pos) :
  rectangular maze -> within_range maze p = true -> exists v, cell maze p = Ok v.
Proof.
  intros Hrect H. unfold within_range in H.
  rewrite !andb_true_iff, !Z.leb_le, !Z.ltb_lt in H.
  destruct H as [[H1 H2] [H3 H4]].
  destruct (nth_error_in_range maze (fst p)) as (row & E & Hin); [lia|].
  unfold cell, index. rewrite E. simpl.
  destruct (nth_error_in_range row (snd p)) as (v & E' & _).
  - unfold len in *. rewrite (rectangular_rows row Hrect Hin). lia.
  - rewrite E'. eauto.
Qed.

Lemma gen_children_total (cur : Node) (moves : list Dir) :
  rectangular maze ->
  forall acc, exists children, gen_children maze cur moves acc = Ok children.
Proof.
  intros Hrect. induction moves as [|d rest IH]; intros acc; simpl; eauto.
  destruct (within_range maze (add_pos (position cur) d)) eqn:R; simpl; auto.
  destruct (cell_in_range _ Hrect R) as (v & ->). simpl.
  destruct (v =? 0); simpl; auto.
Qed.

(** A missing cell is the only thing the loop over the moves can trip on. *)
Lemma gen_children_raise (cur : Node) (moves : list Dir) :
  forall acc e, gen_children maze cur moves acc = Raise e -> e = IndexError.
Proof.
  induction moves as [|d rest IH]; intros acc e H; simpl in H; [discriminate|].
  destruct (within_range maze (add_pos (position cur) d)); simpl in H; eauto.
  unfold cell, index in H.
  destruct (nth_error maze _) as [row|]; simpl in H; [|congruence].
  destruct (nth_error row _) as [v|]; simpl in H; [|congruence].
  destruct (v =? 0); simpl in H; eauto.
Qed.

Lemma successor_in_DIRECTIONS (od : option Dir) (d : Dir) :
  heading_ok od -> In d (successorHeadings od) -> In d DIRECTIONS.
Proof.
  intros [-> | (d0 & -> & H0)] H; [exact H|].
  destruct H as [<- | [<- | []]]; auto using turnRight_DIRECTIONS.
Qed.

Lemma wf_heading (n : Node) : wf_node n -> heading_ok (direction n).
Proof.
  induction 1 as [|p d Hp IH Hd Hf]; [left; reflexivity|].
  right. exists d. split; [reflexivity|].
  eapply successor_in_DIRECTIONS; eauto.
Qed.

Lemma wf_g_nonneg (n : Node) : wf_node n -> 0 <= g n.
Proof. induction 1; simpl in *; lia. Qed.

Lemma wf_undirected (n : Node) :
  wf_node n -> direction n = None -> n = start_node.
Proof. destruct 1; simpl; [reflexivity | discriminate]. Qed.

Lemma wf_directed (n : Node) :
  wf_node n -> direction n <> None ->
  f n = g n + manhattan (position n) end_ /\ 1 <= g n /\ free maze (position n).
Proof.
  destruct 1 as [|p d Hp Hd Hf]; simpl; [congruence|]. intros _.
  pose proof (wf_g_nonneg p Hp). split; [reflexivity|]. split; [lia|exact Hf].
Qed.

Lemma wf_f_lower (n : Node) :
  wf_node n -> f n <= g n + manhattan (position n) end_.
Proof.
  destruct 1 as [|p d Hp Hd Hf]; simpl; [|lia].
  pose proof (manhattan_nonneg start end_). lia.
Qed.

Lemma wf_reach (n : Node) : wf_node n -> reach (state n) (g n).
Proof.
  induction 1 as [|p d Hp IH Hd Hf]; [constructor|].
  unfold state in *; simpl. econstructor; eauto.
Qed.

Lemma reach_nonneg (s : Pos * option Dir) (k : Z) : reach s k -> 0 <= k.
Proof. induction 1; lia. Qed.

Lemma reach_heading (s : Pos * option Dir) (k : Z) :
  reach s k -> heading_ok (snd s).
Proof.
  induction 1 as [|p od k d H IH Hd Hf]; [left; reflexivity|].
  right. exists d. split; [reflexivity|].
  eapply successor_in_DIRECTIONS; eauto.
Qed.

Lemma reach_directed_free (p : Pos) (d : Dir) (k : Z) :
  reach (p, Some d) k -> free maze p.
Proof. inversion 1; subst; auto. Qed.

(** The moves the code offers a node are the document's successor headings. *)
Lemma possible_moves_wf (n : Node) :
  wf_node n ->
  Solution1.possible_moves n = Ok (successorHeadings (direction n)).
Proof.
  intros H. unfold Solution1.possible_moves.
  destruct (wf_heading n H) as [-> | (d & -> & Hd)]; [reflexivity|].
  rewrite (dict_get_turn_right d Hd). reflexivity.
Qed.

Lemma origin_state (a b : Node) : state a = state b -> origin a = origin b.
Proof. unfold state, origin. intros E; inversion E; reflexivity. Qed.

(** Any state the graph can reach in [k] moves is closed, or some open
    node promises a total cost of at most [k] plus the heuristic there. *)
Lemma frontier (open_list closed_list : list Node)
    (s : Pos * option Dir) (k : Z) :
  searching open_list closed_list ->
  reach s k ->
  In s (map state closed_list)
  \/ exists o, In o open_list /\ f o <= k + manhattan (fst s) end_.
Proof.
  intros (F & Ho & Hc & He) Hr.
  induction Hr as [|p od k d Hr IH Hd Hf].
  - left. apply in_map_iff. exists start_node. split; [reflexivity|].
    apply (co_start _ Hc).
  - assert (Hdir : In d DIRECTIONS).
    { eapply successor_in_DIRECTIONS; eauto. apply (reach_heading _ _ Hr). }
    destruct IH as [Hin | (o & Ho1 & Ho2)].
    + apply in_map_iff in Hin. destruct Hin as (c & Ec & Hin).
      assert (Hg : g c <= k) by (apply (co_opt _ Hc); [auto | rewrite Ec; auto]).
      unfold state in Ec. inversion Ec; subst p od.
      destruct (He c Hin d Hd Hf) as [Hcl | (o & Ho1 & Ho2 & Ho3)].
      * left. exact Hcl.
      * right. exists o. split; auto. simpl.
        unfold state in Ho2. inversion Ho2 as [[Epo Edo]].
        assert (Hdo : direction o <> None) by congruence.
        destruct (wf_directed o (oo_wf _ _ _ Ho o Ho1) Hdo) as (Ef & _ & _).
        rewrite Ef, Epo. lia.
    + right. exists o. split; auto. simpl in *.
      pose proof (manhattan_step p end_ d Hdir). lia.
Qed.

Lemma NoDup_snoc {A} (l : list A) (x : A) :
  NoDup l -> ~ In x l -> NoDup (l ++ [x]).
Proof.
  intros Hl Hx. induction Hl as [|y l Hy Hl IH]; simpl.
  - constructor; [intros []|constructor].
  - constructor.
    + rewrite in_app_iff. simpl. intros [?|[->|[]]]; [auto|].
      apply Hx. left; reflexivity.
    + apply IH. intros H. apply Hx. right; exact H.
Qed.

Lemma origin_child (cur : Node) (d : Dir) :
  origin (set_scores end_node cur (child_of cur d)) = position cur.
Proof.
  unfold origin, add_pos; simpl. destruct (position cur); simpl. f_equal; lia.
Qed.

(** ** Inserting the children *)

Lemma process_child_ok (cur : Node) (closed_list open_list : list Node) (d : Dir) :
  wf_node cur ->
  open_ok (f cur) closed_list open_list ->
  In d (successorHeadings (direction cur)) ->
  free maze (add_pos (position cur) d) ->
  let open_list' :=
    process_child end_node cur closed_list open_list (child_of cur d) in
  open_ok (f cur) closed_list open_list'
  /\ incl open_list open_list'
  /\ (In (add_pos (position cur) d, Some d) (map state closed_list)
      \/ exists o, In o open_list'
                   /\ state o = (add_pos (position cur) d, Some d)
                   /\ g o <= g cur + 1).
Proof.
  intros Hcur Ho Hd Hf. unfold process_child.
  assert (Hdir : In d DIRECTIONS)
    by (eapply successor_in_DIRECTIONS; eauto using wf_heading).
  pose proof (wf_g_nonneg cur Hcur) as Hg0.
  pose proof (wf_f_lower cur Hcur) as Hfl.
  destruct (Node_in (child_of cur d) closed_list) eqn:E1.
  { apply Node_in_state in E1.
    split; [exact Ho|]. split; [apply incl_refl | left; exact E1]. }
  set (child := set_scores end_node cur (child_of cur d)).
  assert (Hdom : forall o, In o open_list -> state o = state child ->
                           g o <= g cur + 1).
  { intros o Hin Es. apply origin_state in Es. unfold child in Es.
    rewrite origin_child in Es.
    destruct (oo_key _ _ _ Ho o Hin) as [H1 | H1]; [lia|].
    rewrite Es in H1. lia. }
  destruct (is_in_open_list child open_list) eqn:E2.
  { unfold is_in_open_list in E2. apply existsb_exists in E2.
    destruct E2 as (o & Hin & E2). apply andb_true_iff in E2.
    destruct E2 as [E2 E3]. apply Node_eq_state in E2.
    split; [exact Ho|]. split; [apply incl_refl|].
    right. exists o. split; [exact Hin|]. split; [symmetry; exact E2|].
    apply Z.leb_le in E3. exact E3. }
  assert (Hnew : ~ In (state child) (map state open_list)).
  { intros Hin. apply in_map_iff in Hin. destruct Hin as (o & Es & Hin).
    assert (existsb (fun open_node => Node_eq child open_node
                                      && (g open_node <=? g child)) open_list
            = true) as Hex.
    { apply existsb_exists. exists o. split; auto. apply andb_true_iff. split.
      - apply Node_eq_state. auto.
      - apply Z.leb_le. simpl. apply Hdom; auto. }
    unfold is_in_open_list in E2. congruence. }
  split; [|split].
  - constructor.
    + intros n Hin. apply in_app_or in Hin. destruct Hin as [Hin | [<- | []]].
      * apply (oo_wf _ _ _ Ho); auto.
      * unfold child. constructor; auto.
    + intros n Hin. apply in_app_or in Hin. destruct Hin as [Hin | [<- | []]].
      * apply (oo_dir _ _ _ Ho); auto.
      * simpl. discriminate.
    + intros n Hin. apply in_app_or in Hin. destruct Hin as [Hin | [<- | []]].
      * apply (oo_f _ _ _ Ho); auto.
      * simpl. pose proof (manhattan_step (position cur) end_ d Hdir). lia.
    + intros n Hin. apply in_app_or in Hin. destruct Hin as [Hin | [<- | []]].
      * apply (oo_key _ _ _ Ho); auto.
      * unfold child. rewrite origin_child. cbn [g set_scores].
        destruct (direction cur) as [d0|] eqn:Ed.
        -- right. destruct (wf_directed cur Hcur) as (Ef & _ & _); [congruence|].
           lia.
        -- left. rewrite (wf_undirected cur Hcur Ed). simpl. lia.
    + rewrite map_app. simpl. apply NoDup_snoc; auto. apply (oo_nodup _ _ _ Ho).
    + intros o c Hin Hc. apply in_app_or in Hin. destruct Hin as [Hin | [<- | []]].
      * apply (oo_disj _ _ _ Ho); auto.
      * intros Es.
        assert (Node_in (child_of cur d) closed_list = true); [|congruence].
        apply Node_in_state. apply in_map_iff. exists c. split; auto.
  - apply incl_appl, incl_refl.
  - right. exists child. split; [apply in_or_app; right; left; reflexivity|].
    split; [reflexivity | simpl; lia].
Qed.

Lemma process_children_ok (cur : Node) (closed_list children : list Node) :
  wf_node cur ->
  (forall c, In c children ->
             exists d, In d (successorHeadings (direction cur))
                       /\ free maze (add_pos (position cur) d)
                       /\ c = child_of cur d) ->
  forall open_list,
    open_ok (f cur) closed_list open_list ->
    let open_list' :=
      process_children end_node cur closed_list children open_list in
    open_ok (f cur) closed_list open_list'
    /\ incl open_list open_list'
    /\ forall c, In c children ->
         In (state c) (map state closed_list)
         \/ exists o, In o open_list' /\ state o = state c /\ g o <= g cur + 1.
Proof.
  intros Hcur. unfold process_children.
  induction children as [|c rest IH]; intros Hch open_list Ho; simpl.
  - split; [exact Ho|]. split; [apply incl_refl | intros c []].
  - destruct (Hch c (or_introl eq_refl)) as (d & Hd & Hf & ->).
    destruct (process_child_ok cur closed_list open_list d Hcur Ho Hd Hf)
      as (Ho1 & Hi1 & Hw1).
    destruct (IH (fun c' H => Hch c' (or_intror H)) _ Ho1) as (Ho2 & Hi2 & Hw2).
    split; [exact Ho2|]. split; [eapply incl_tran; eauto|].
    intros c [<- | Hin]; [|auto].
    destruct Hw1 as [Hcl | (o & Hin & Es & Hg)]; [left; exact Hcl|].
    right. exists o. auto.
Qed.

(** ** Popping the minimum *)

Lemma popped_bound (pre post : list Node) (cur : Node)
    (closed_list : list Node) (s : Pos * option Dir) (k : Z) :
  searching (pre ++ cur :: post) closed_list ->
  (forall x, In x pre -> f cur < f x) ->
  (forall x, In x post -> f cur <= f x) ->
  reach s k ->
  ~ In s (map state closed_list) ->
  f cur <= k + manhattan (fst s) end_.
Proof.
  intros Hs Hpre Hpost Hr Hn.
  destruct (frontier _ _ s k Hs Hr) as [H | (o & Hin & Hfo)]; [contradiction|].
  apply in_app_or in Hin. destruct Hin as [Hin | [<- | Hin]].
  - specialize (Hpre o Hin). lia.
  - lia.
  - specialize (Hpost o Hin). lia.
Qed.

Lemma popped_cost (cur : Node) (k : Z) :
  wf_node cur -> 0 <= k ->
  f cur <= k + manhattan (position cur) end_ -> g cur <= k.
Proof.
  intros Hw Hk Hf. destruct (direction cur) as [d|] eqn:Ed.
  - destruct (wf_directed cur Hw) as (Ef & _ & _); [congruence | lia].
  - rewrite (wf_undirected cur Hw Ed). simpl. exact Hk.
Qed.

Lemma pop_ok (pre post : list Node) (cur : Node) (closed_list : list Node) :
  searching (pre ++ cur :: post) closed_list ->
  (forall x, In x pre -> f cur < f x) ->
  (forall x, In x post -> f cur <= f x) ->
  position cur <> end_ ->
  closed_ok (closed_list ++ [cur])
  /\ open_ok (f cur) (closed_list ++ [cur]) (pre ++ post)
  /\ forall c, In c closed_list ->
               expanded (closed_list ++ [cur]) (pre ++ post) c.
Proof.
  intros Hs Hpre Hpost Hgoal.
  pose proof Hs as (F & Ho & Hc & He).
  assert (Hincur : In cur (pre ++ cur :: post))
    by (apply in_or_app; right; left; reflexivity).
  assert (Hsub : forall x, In x (pre ++ post) -> In x (pre ++ cur :: post)).
  { intros x Hx. apply in_app_or in Hx. apply in_or_app.
    destruct Hx; [left | right; right]; auto. }
  assert (Hmin : forall x, In x (pre ++ post) -> f cur <= f x).
  { intros x Hx. apply in_app_or in Hx. destruct Hx as [Hx | Hx].
    - specialize (Hpre x Hx). lia.
    - auto. }
  pose proof (oo_wf _ _ _ Ho cur Hincur) as Hwcur.
  pose proof (oo_nodup _ _ _ Ho) as Hnd. rewrite map_app in Hnd. simpl in Hnd.
  assert (Hfresh : ~ In (state cur) (map state closed_list)).
  { intros Hin. apply in_map_iff in Hin. destruct Hin as (c & Ec & Hin).
    apply (oo_disj _ _ _ Ho cur c Hincur Hin). auto. }
  split; [|split].
  - constructor.
    + intros c Hin. apply in_app_or in Hin. destruct Hin as [Hin | [<- | []]]; auto.
      apply (co_wf _ Hc); auto.
    + rewrite map_app. simpl. apply NoDup_snoc; auto. apply (co_nodup _ Hc).
    + intros c Hin. apply in_app_or in Hin. destruct Hin as [Hin | [<- | []]]; auto.
      apply (co_goal _ Hc); auto.
    + intros c k Hin Hr. apply in_app_or in Hin.
      destruct Hin as [Hin | [<- | []]]; [apply (co_opt _ Hc); auto|].
      apply popped_cost; auto; [eapply reach_nonneg; eauto|].
      apply (popped_bound pre post cur closed_list (state cur) k); auto.
    + apply in_or_app. left. apply (co_start _ Hc).
  - constructor.
    + intros n Hin. apply (oo_wf _ _ _ Ho); auto.
    + intros n Hin. apply (oo_dir _ _ _ Ho); auto.
    + exact Hmin.
    + intros n Hin. pose proof (oo_f _ _ _ Ho cur Hincur).
      destruct (oo_key _ _ _ Ho n (Hsub n Hin)); [left | right]; lia.
    + rewrite map_app. eapply NoDup_remove_1; eauto.
    + intros o c Hin Hcl. apply in_app_or in Hcl.
      destruct Hcl as [Hcl | [<- | []]].
      * apply (oo_disj _ _ _ Ho); auto.
      * intros Es. apply (NoDup_remove_2 _ _ _ Hnd). rewrite <- Es.
        rewrite <- map_app. apply in_map. exact Hin.
  - intros c Hin d Hd Hf.
    destruct (He c Hin d Hd Hf) as [Hcl | (o & Hino & Es & Hg)].
    + left. rewrite map_app. apply in_or_app. left. exact Hcl.
    + apply in_app_or in Hino. destruct Hino as [Hino | [<- | Hino]].
      * right. exists o. split; [apply in_or_app; left; auto | auto].
      * left. rewrite map_app. apply in_or_app. right. left. exact Es.
      * right. exists o. split; [apply in_or_app; right; auto | auto].
Qed.

(** ** Expanding the popped node *)

Lemma expand_ok (cur : Node) (closed_list open_list children : list Node) :
  wf_node cur ->
  closed_ok (closed_list ++ [cur]) ->
  open_ok (f cur) (closed_list ++ [cur]) open_list ->
  (forall c, In c closed_list ->
             expanded (closed_list ++ [cur]) open_list c) ->
  gen_children maze cur (successorHeadings (direction cur)) [] = Ok children ->
  searching
    (process_children end_node cur (closed_list ++ [cur]) children open_list)
    (closed_list ++ [cur]).
Proof.
  intros Hw Hc Ho He Hgen.
  pose proof (gen_children_spec cur _ _ _ Hgen) as Hspec.
  destruct (process_children_ok cur (closed_list ++ [cur]) children Hw)
    with (open_list := open_list) as (Ho' & Hincl & Hwit); auto.
  { intros c Hin. apply Hspec in Hin. destruct Hin as [[] | Hin]. exact Hin. }
  exists (f cur). split; [exact Ho'|]. split; [exact Hc|].
  intros c Hin d Hd Hf. apply in_app_or in Hin. destruct Hin as [Hin | [<- | []]].
  - destruct (He c Hin d Hd Hf) as [Hcl | (o & Hino & Es & Hg)]; [left; auto|].
    right. exists o. auto.
  - assert (Hch : In (child_of cur d) children).
    { apply Hspec. right. exists d. auto. }
    destruct (Hwit _ Hch) as [Hcl | (o & Hino & Es & Hg)]; [left; exact Hcl|].
    right. exists o. auto.
Qed.

(** ** One pass of the loop *)

Lemma iteration_searching (open_list closed_list : list Node) :
  searching open_list closed_list ->
  match Solution1.iteration maze end_node open_list closed_list with
  | Running open_list' closed_list' =>
      searching open_list' closed_list'
      /\ exists cur, closed_list' = closed_list ++ [cur]
  | Done (Path path) =>
      exists cur, wf_node cur /\ position cur = end_
                  /\ path = rev (chain cur)
                  /\ forall od k, reach (end_, od) k -> g cur <= k
  | Done NoPath => open_list = []
  | Done (Raised e) => e = IndexError /\ ~ rectangular maze
  end.
Proof.
  intros Hs. unfold Solution1.iteration.
  destruct open_list as [|first rest]; [reflexivity|].
  destruct (select_min (first :: rest) 0 first 0) as [cur idx] eqn:Esel.
  apply select_min_spec in Esel.
  destruct Esel as (pre & post & E & El & Hpre & Hpost).
  rewrite E in *. rewrite <- El, pop_middle.
  pose proof Hs as (F & Ho & Hc & He).
  assert (Hw : wf_node cur).
  { apply (oo_wf _ _ _ Ho). apply in_or_app. right. left. reflexivity. }
  simpl position at 2.
  destruct (pos_eqb (position cur) end_) eqn:Eg.
  - apply pos_eqb_eq in Eg. exists cur. repeat split; auto.
    intros od k Hr. apply popped_cost; auto; [eapply reach_nonneg; eauto|].
    rewrite Eg.
    apply (popped_bound pre post cur closed_list (end_, od) k); auto.
    intros Hin. apply in_map_iff in Hin. destruct Hin as (c & Ec & Hin).
    apply (co_goal _ Hc c Hin). unfold state in Ec. congruence.
  - apply pos_eqb_neq in Eg.
    destruct (pop_ok pre post cur closed_list Hs Hpre Hpost Eg) as (Hc1 & Ho1 & He1).
    rewrite (possible_moves_wf cur Hw).
    destruct (gen_children maze cur _ []) as [children | e] eqn:Egen.
    + split; [|eauto]. apply expand_ok; auto.
    + split; [eapply gen_children_raise; eauto|].
      intros Hrect.
      destruct (gen_children_total cur
                  (successorHeadings (direction cur)) Hrect []) as (ch & Ech).
      congruence.
Qed.

Lemma closed_ok_start : start <> end_ -> closed_ok [start_node].
Proof.
  intros Hne. constructor.
  - intros c [<- | []]. constructor.
  - simpl. constructor; [intros [] | constructor].
  - intros c [<- | []]. simpl. exact Hne.
  - intros c k [<- | []] Hr. simpl. eapply reach_nonneg; eauto.
  - left; reflexivity.
Qed.

Lemma open_ok_nil (F : Z) (closed_list : list Node) : open_ok F closed_list [].
Proof.
  constructor; simpl; try (intros n H; contradiction); constructor.
Qed.

Lemma iteration_first :
  match Solution1.iteration maze end_node [start_node] [] with
  | Running open_list' closed_list' =>
      searching open_list' closed_list' /\ closed_list' = [start_node]
      /\ start <> end_
  | Done (Path path) => start = end_ /\ path = [start]
  | Done NoPath => False
  | Done (Raised e) => e = IndexError /\ ~ rectangular maze
  end.
Proof.
  unfold Solution1.iteration. cbn [select_min f Node_init].
  rewrite Z.ltb_irrefl. cbn [pop app position Node_init].
  destruct (pos_eqb start end_) eqn:Eg.
  - apply pos_eqb_eq in Eg. auto.
  - apply pos_eqb_neq in Eg.
    rewrite (possible_moves_wf start_node wf_start).
    destruct (gen_children maze start_node _ []) as [children | e] eqn:Egen.
    + split; [|auto].
      apply (expand_ok start_node [] [] children); auto using wf_start.
      * apply closed_ok_start; auto.
      * apply open_ok_nil.
      * intros c [].
    + split; [eapply gen_children_raise; eauto|].
      intros Hrect.
      destruct (gen_children_total start_node
                  (successorHeadings (direction start_node)) Hrect [])
        as (ch & Ech).
      congruence.
Qed.

Lemma iteration_Inv (open_list closed_list : list Node) :
  Inv open_list closed_list ->
  match Solution1.iteration maze end_node open_list closed_list with
  | Running open_list' closed_list' =>
      searching open_list' closed_list'
      /\ exists cur, closed_list' = closed_list ++ [cur]
  | Done (Path path) =>
      exists cur, wf_node cur /\ position cur = end_
                  /\ path = rev (chain cur)
                  /\ forall od k, reach (end_, od) k -> g cur <= k
  | Done NoPath => open_list = []
  | Done (Raised e) => e = IndexError /\ ~ rectangular maze
  end.
Proof.
  intros [[-> ->] | Hs]; [|apply iteration_searching; exact Hs].
  pose proof iteration_first as H.
  destruct (Solution1.iteration maze end_node [start_node] []) as [o c | [path | | e]].
  - destruct H as (Hs & -> & _). split; [exact Hs|]. exists start_node. reflexivity.
  - destruct H as [E ->]. exists start_node. repeat split; auto using wf_start.
    intros od k Hr. simpl. eapply reach_nonneg; eauto.
  - contradiction.
  - exact H.
Qed.

(** What holds of every result of the loop started inside the invariant. *)
Lemma loop_result (fuel : nat) :
  forall open_list closed_list r,
    Inv open_list closed_list ->
    Solution1.loop fuel maze end_node open_list closed_list = Some r ->
    match r with
    | Path path =>
        exists cur, wf_node cur /\ position cur = end_
                    /\ path = rev (chain cur)
                    /\ forall od k, reach (end_, od) k -> g cur <= k
    | NoPath => True
    | Raised e => e = IndexError /\ ~ rectangular maze
    end.
Proof.
  induction fuel as [|fuel IH]; intros open_list closed_list r HI H; simpl in H.
  - discriminate.
  - pose proof (iteration_Inv open_list closed_list HI) as Hit.
    destruct (Solution1.iteration maze end_node open_list closed_list)
      as [o c | r'].
    + destruct Hit as [Hs _]. apply (IH o c r); [right; exact Hs | exact H].
    + inversion H; subst r'. destruct r; auto.
Qed.

Lemma lists_after_Inv (n : nat) :
  forall open_list closed_list open_list' closed_list',
    Inv open_list closed_list ->
    lists_after n maze end_node open_list closed_list
    = Some (open_list', closed_list') ->
    Inv open_list' closed_list'.
Proof.
  induction n as [|n IH]; intros o c o' c' HI H; simpl in H.
  - inversion H; subst. exact HI.
  - pose proof (iteration_Inv o c HI) as Hit.
    destruct (Solution1.iteration maze end_node o c) as [o1 c1 | r];
      [|discriminate].
    destruct Hit as [Hs _]. apply (IH o1 c1); [right; exact Hs | exact H].
Qed.

Lemma within_range_cells (p : Pos) : within_range maze p = true -> In p cells.
Proof.
  unfold within_range, len. rewrite !andb_true_iff, !Z.leb_le, !Z.ltb_lt.
  intros [[H1 H2] [H3 H4]]. destruct p as [r c]; simpl in *.
  unfold cells. apply in_prod; apply in_map_iff.
  - exists (Z.to_nat r). split; [lia|]. apply in_seq. lia.
  - exists (Z.to_nat c). split; [lia|]. apply in_seq. lia.
Qed.

Lemma wf_universe (n : Node) : wf_node n -> In (state n) universe.
Proof.
  intros H. pose proof (wf_heading n H) as Hh.
  destruct H as [|p d Hp Hd Hf]; [left; reflexivity|].
  right. unfold state; simpl in *. apply in_map_iff.
  exists (add_pos (position p) d, d). split; [reflexivity|].
  apply in_prod.
  - apply within_range_cells. apply Hf.
  - destruct Hh as [E | (d' & E & Hin)]; [discriminate|]. congruence.
Qed.

End Search.

Lemma universe_length (maze : Maze) (start : Pos) :
  length (universe maze start) = state_bound maze.
Proof.
  unfold universe, state_bound, cells, Pos, Dir. simpl length.
  rewrite length_map, !length_prod, !length_map, !length_seq.
  change (length DIRECTIONS) with 4%nat. lia.
Qed.

Lemma Inv_closed_bound (maze : Maze) (start end_ : Pos)
    (open_list closed_list : list Node) :
  Inv maze start end_ open_list closed_list ->
  (length closed_list <= state_bound maze)%nat.
Proof.
  intros [[_ ->] | (F & Ho & Hc & He)]; [simpl; lia|].
  rewrite <- (universe_length maze start).
  rewrite <- (length_map state closed_list).
  apply NoDup_incl_length; [apply (co_nodup _ _ _ _ Hc)|].
  intros s Hin. apply in_map_iff in Hin. destruct Hin as (c & <- & Hin).
  eapply wf_universe. apply (co_wf _ _ _ _ Hc). exact Hin.
Qed.

(** The loop ends within the fuel left by the states not yet closed. *)
Lemma loop_terminates (maze : Maze) (start end_ : Pos) (fuel : nat) :
  forall open_list closed_list,
    Inv maze start end_ open_list closed_list ->
    (state_bound maze < fuel + length closed_list)%nat ->
    exists r, Solution1.loop fuel maze (Node_init None end_ None)
                open_list closed_list = Some r.
Proof.
  induction fuel as [|fuel IH]; intros o c HI Hb.
  - pose proof (Inv_closed_bound _ _ _ _ _ HI). lia.
  - simpl. pose proof (iteration_Inv maze start end_ o c HI) as Hit.
    destruct (Solution1.iteration maze (Node_init None end_ None) o c)
      as [o1 c1 | r]; [|eauto].
    destruct Hit as (Hs & cur & ->). apply IH; [right; exact Hs|].
    rewrite length_app. simpl. lia.
Qed.

(** A result, once produced, does not depend on the fuel that is left. *)
Lemma loop_more_fuel (maze : Maze) (end_node : Node) (fuel : nat) :
  forall fuel' open_list closed_list r,
    (fuel <= fuel')%nat ->
    Solution1.loop fuel maze end_node open_list closed_list = Some r ->
    Solution1.loop fuel' maze end_node open_list closed_list = Some r.
Proof.
  induction fuel as [|fuel IH]; intros fuel' o c r Hle H; [discriminate|].
  destruct fuel' as [|fuel']; [lia|].
  cbn [Solution1.loop] in *.
  destruct (Solution1.iteration maze end_node o c) as [o1 c1 | r1]; [|exact H].
  apply IH; [lia | exact H].
Qed.

Lemma astar_more_fuel (fuel fuel' : nat) (maze : Maze) (start end_ : Pos)
    (r : result) :
  (fuel <= fuel')%nat ->
  Solution1.astar fuel maze start end_ = Some r ->
  Solution1.astar fuel' maze start end_ = Some r.
Proof. unfold Solution1.astar. apply loop_more_fuel. Qed.

(** ** Walks as lists of coordinates *)

Lemma final_last (rest : list Pos) :
  forall prev p d, fst (final prev p rest) = last (p :: rest) d.
Proof.
  induction rest as [|q rest IH]; intros prev p d; [reflexivity|].
  simpl final. rewrite (IH _ q d). reflexivity.
Qed.

Lemma legal_from_snoc (maze : Maze) (rest : list Pos) :
  forall prev p q od d,
    legal_from maze prev p rest ->
    final prev p rest = (q, od) ->
    In d (successorHeadings od) ->
    free maze (add_pos q d) ->
    legal_from maze prev p (rest ++ [add_pos q d])
    /\ final prev p (rest ++ [add_pos q d]) = (add_pos q d, Some d).
Proof.
  induction rest as [|x rest IH]; intros prev p q od d Hl Hfin Hd Hf; simpl in *.
  - inversion Hfin; subst. rewrite step_of_add. auto.
  - destruct Hl as (H1 & H2 & H3).
    destruct (IH _ _ _ _ _ H3 Hfin Hd Hf) as [H4 H5]. auto.
Qed.

Lemma legal_from_free (maze : Maze) (rest : list Pos) :
  forall prev p, legal_from maze prev p rest -> Forall (free maze) rest.
Proof.
  induction rest as [|q rest IH]; intros prev p Hl; [constructor|].
  destruct Hl as (_ & H2 & H3). constructor; eauto.
Qed.

Lemma legal_from_heading (maze : Maze) (prev : option Dir) (p q : Pos)
    (rest : list Pos) :
  heading_ok prev -> legal_from maze prev p (q :: rest) ->
  In (step_of p q) DIRECTIONS.
Proof.
  intros Hh (H1 & _). eapply successor_in_DIRECTIONS; eauto.
Qed.

(** Consecutive coordinates of a legal walk are one cardinal step apart. *)
Lemma legal_from_adjacent (maze : Maze) (rest : list Pos) :
  forall prev p i a b,
    heading_ok prev ->
    legal_from maze prev p rest ->
    nth_error (p :: rest) i = Some a ->
    nth_error (p :: rest) (S i) = Some b ->
    In (step_of a b) DIRECTIONS.
Proof.
  induction rest as [|q rest IH]; intros prev p i a b Hh Hl Ha Hb.
  - destruct i; simpl in Hb; discriminate.
  - pose proof (legal_from_heading _ _ _ _ _ Hh Hl) as Hd.
    destruct i as [|i]; simpl in Ha, Hb.
    + inversion Ha; inversion Hb; subst. exact Hd.
    + destruct Hl as (_ & _ & Hl).
      apply (IH (Some (step_of p q)) q i a b); auto.
      right. eauto.
Qed.

(** Each move of a legal walk repeats the previous heading or turns right. *)
Lemma legal_from_turn (maze : Maze) (rest : list Pos) :
  forall prev p i a b c,
    legal_from maze prev p rest ->
    nth_error (p :: rest) i = Some a ->
    nth_error (p :: rest) (S i) = Some b ->
    nth_error (p :: rest) (S (S i)) = Some c ->
    step_of b c = step_of a b \/ step_of b c = turnRight (step_of a b).
Proof.
  induction rest as [|q rest IH]; intros prev p i a b c Hl Ha Hb Hc.
  - destruct i; simpl in Hb; discriminate.
  - destruct Hl as (_ & _ & Hl).
    destruct i as [|i]; simpl in Ha, Hb, Hc.
    + destruct rest as [|r rest]; simpl in Hc; [discriminate|].
      inversion Ha; inversion Hb; inversion Hc; subst.
      destruct Hl as (H1 & _). simpl in H1.
      destruct H1 as [H1 | [H1 | []]]; auto.
    + apply (IH (Some (step_of p q)) q i a b c); auto.
Qed.

Lemma unit_step_DIRECTIONS (d : Dir) :
  In d DIRECTIONS -> Z.abs (fst d) + Z.abs (snd d) = 1.
Proof.
  intros H. apply in_DIRECTIONS in H.
  destruct H as [-> | [-> | [-> | ->]]]; reflexivity.
Qed.

Lemma legal_reach (maze : Maze) (start : Pos) (rest : list Pos) :
  forall prev p k,
    reach maze start (p, prev) k ->
    legal_from maze prev p rest ->
    reach maze start (final prev p rest) (k + len rest).
Proof.
  induction rest as [|q rest IH]; intros prev p k Hr Hl.
  - simpl. unfold len. simpl. rewrite Z.add_0_r. exact Hr.
  - destruct Hl as (H1 & H2 & H3). simpl final.
    replace (k + len (q :: rest)) with (k + 1 + len rest)
      by (unfold len; simpl length; lia).
    apply IH; [|exact H3].
    pose proof (reach_move maze start p prev k (step_of p q) Hr H1) as Hm.
    rewrite add_step_of in Hm. auto.
Qed.

(** The list rebuilt from a node of the run is a legal walk from the start
    to that node's state, and has as many moves as the node's [g]. *)
Lemma wf_path (maze : Maze) (start end_ : Pos) (n : Node) :
  wf_node maze start end_ n ->
  exists rest, rev (chain n) = start :: rest
               /\ legal_from maze None start rest
               /\ final None start rest = state n
               /\ len rest = g n.
Proof.
  induction 1 as [|p d Hp IH Hd Hf].
  - exists []. repeat split; constructor.
  - destruct IH as (rest & E1 & E2 & E3 & E4).
    exists (rest ++ [add_pos (position p) d]).
    destruct (legal_from_snoc maze rest None start (position p) (direction p) d)
      as [H1 H2]; auto.
    repeat split; auto.
    + simpl chain. simpl rev. rewrite E1. reflexivity.
    + unfold len in *. rewrite length_app. simpl. lia.
Qed.

Lemma astar_path_node (fuel : nat) (maze : Maze) (start end_ : Pos)
    (path : list Pos) :
  Solution1.astar fuel maze start end_ = Some (Path path) ->
  exists cur, wf_node maze start end_ cur /\ position cur = end_
              /\ path = rev (chain cur)
              /\ forall od k, reach maze start (end_, od) k -> g cur <= k.
Proof.
  unfold Solution1.astar. intros H.
  apply (loop_result maze start end_ fuel [Node_init None start None] []
           (Path path)); auto.
  left. auto.
Qed.

Lemma astar_constrained_path (fuel : nat) (maze : Maze) (start end_ : Pos)
    (path : list Pos) :
  Solution1.astar fuel maze start end_ = Some (Path path) ->
  constrained_path maze start end_ path.
Proof.
  intros H. destruct (astar_path_node _ _ _ _ _ H) as (cur & Hw & Hp & -> & _).
  destruct (wf_path _ _ _ _ Hw) as (rest & E1 & E2 & E3 & E4).
  exists rest. repeat split; auto.
  rewrite E1. rewrite <- (final_last rest None start start), E3. exact Hp.
Qed.

Lemma astar_minimal (fuel : nat) (maze : Maze) (start end_ : Pos)
    (path other : list Pos) :
  Solution1.astar fuel maze start end_ = Some (Path path) ->
  constrained_path maze start end_ other ->
  moves_of path <= moves_of other.
Proof.
  intros H (rest' & -> & Hl & Hlast).
  destruct (astar_path_node _ _ _ _ _ H) as (cur & Hw & Hp & -> & Hopt).
  destruct (wf_path _ _ _ _ Hw) as (rest & E1 & E2 & E3 & E4).
  pose proof (legal_reach maze start rest' None start 0
                (reach_start maze start) Hl) as Hr.
  rewrite <- (final_last rest' None start start) in Hlast.
  destruct (final None start rest') as [q od]; simpl in Hlast; subst q.
  apply Hopt in Hr. rewrite E1. unfold moves_of, len in *. simpl length. lia.
Qed.

(** ** Properties of [astar] *)

(** The scenarios of the design document, run on the model. *)
Example scenario_A_no_path :
  Solution1.astar 10 [[0; 1]; [1; 0]] (0, 0) (1, 1) = Some NoPath.
Proof. vm_compute. reflexivity. Qed.

Example scenario_B_forced_corridor :
  Solution1.astar 40 scenario_B (0, 0) (2, 0) = Some (Path scenario_B_path).
Proof. vm_compute. reflexivity. Qed.

Example ragged_grid_raises :
  Solution1.astar 10 [[0; 0]; [0]] (0, 0) (1, 1) = Some (Raised IndexError).
Proof. vm_compute. reflexivity. Qed.

(** C1 (optimality).  On a rectangular wall/free grid with a free in-bounds
    start and goal, a path returned by [astar] is itself a start-to-goal
    path under the forward / turn-right rule, and no such path has fewer
    moves: its move count is the minimum. *)
Theorem astar_optimal (fuel : nat) (maze : Maze) (start end_ : Pos)
    (path : list Pos) :
  rectangular maze ->
  wall_free_grid maze ->
  free maze start ->
  free maze end_ ->
  Solution1.astar fuel maze start end_ = Some (Path path) ->
  constrained_path maze start end_ path
  /\ forall other, constrained_path maze start end_ other ->
                   moves_of path <= moves_of other.
Proof.
  intros _ _ _ _ H. split.
  - eapply astar_constrained_path; eauto.
  - intros other Ho. eapply astar_minimal; eauto.
Qed.

Lemma astar_optimal_witness :
  constrained_path scenario_B (0, 0) (2, 0) scenario_B_path
  /\ forall other, constrained_path scenario_B (0, 0) (2, 0) other ->
                   moves_of scenario_B_path <= moves_of other.
Proof.
  apply (astar_optimal 40 scenario_B (0, 0) (2, 0)).
  - reflexivity.
  - reflexivity.
  - split; reflexivity.
  - split; reflexivity.
  - vm_compute. reflexivity.
Defined.

(** C2 (shape of a returned path).  A returned sequence starts at the
    start, ends at the goal, moves by one unit along exactly one axis
    between consecutive coordinates, and from the second move on each move
    keeps the previous heading or is its clockwise rotation. *)
Theorem astar_path_shape (fuel : nat) (maze : Maze) (start end_ : Pos)
    (path : list Pos) :
  Solution1.astar fuel maze start end_ = Some (Path path) ->
  hd_error path = Some start
  /\ last path start = end_
  /\ (forall i a b,
        nth_error path i = Some a -> nth_error path (S i) = Some b ->
        (Z.abs (fst b - fst a) = 1 /\ snd b = snd a)
        \/ (fst b = fst a /\ Z.abs (snd b - snd a) = 1))
  /\ (forall i a b c,
        nth_error path i = Some a -> nth_error path (S i) = Some b ->
        nth_error path (S (S i)) = Some c ->
        step_of b c = step_of a b \/ step_of b c = turnRight (step_of a b)).
Proof.
  intros H.
  destruct (astar_constrained_path _ _ _ _ _ H) as (rest & -> & Hl & Hlast).
  split; [reflexivity|]. split; [exact Hlast|]. split.
  - intros i a b Ha Hb.
    assert (Hd : In (step_of a b) DIRECTIONS).
    { eapply legal_from_adjacent; eauto. left; reflexivity. }
    apply in_DIRECTIONS in Hd. unfold step_of, UP, RIGHT, DOWN, LEFT in Hd.
    destruct Hd as [E | [E | [E | E]]]; inversion E; lia.
  - intros i a b c Ha Hb Hc. eapply legal_from_turn; eauto.
Qed.

Lemma astar_path_shape_witness :
  hd_error scenario_B_path = Some (0, 0)
  /\ last scenario_B_path (0, 0) = (2, 0)
  /\ (forall i a b,
        nth_error scenario_B_path i = Some a ->
        nth_error scenario_B_path (S i) = Some b ->
        (Z.abs (fst b - fst a) = 1 /\ snd b = snd a)
        \/ (fst b = fst a /\ Z.abs (snd b - snd a) = 1))
  /\ (forall i a b c,
        nth_error scenario_B_path i = Some a ->
        nth_error scenario_B_path (S i) = Some b ->
        nth_error scenario_B_path (S (S i)) = Some c ->
        step_of b c = step_of a b \/ step_of b c = turnRight (step_of a b)).
Proof.
  apply (astar_path_shape 40 scenario_B (0, 0) (2, 0)).
  vm_compute. reflexivity.
Defined.

(** C10 (cells of a returned path).  Every coordinate after the first lies
    inside the grid on a 0 cell; the first is the start as given, unchecked,
    so a wall start and an out-of-range start both show up in a result. *)
Theorem astar_path_cells :
  (forall fuel maze start end_ path,
      Solution1.astar fuel maze start end_ = Some (Path path) ->
      exists rest, path = start :: rest /\ Forall (free maze) rest)
  /\ (exists fuel maze start end_ path,
        cell maze start = Ok 1
        /\ Solution1.astar fuel maze start end_ = Some (Path path)
        /\ hd_error path = Some start)
  /\ (exists fuel maze start end_ path,
        within_range maze start = false
        /\ Solution1.astar fuel maze start end_ = Some (Path path)
        /\ hd_error path = Some start).
Proof.
  split; [|split].
  - intros fuel maze start end_ path H.
    destruct (astar_constrained_path _ _ _ _ _ H) as (rest & -> & Hl & _).
    exists rest. split; [reflexivity|]. eapply legal_from_free; eauto.
  - exists 2%nat, [[1; 0]], (0, 0), (0, 1), [(0, 0); (0, 1)].
    repeat split; reflexivity.
  - exists 2%nat, [[0]], (0, -1), (0, 0), [(0, -1); (0, 0)].
    repeat split; reflexivity.
Qed.

Lemma astar_path_cells_witness :
  exists rest, [(0, 0); (0, 1)] = (0, 0) :: rest /\ Forall (free [[1; 0]]) rest.
Proof.
  apply (proj1 astar_path_cells 2%nat [[1; 0]] (0, 0) (0, 1)).
  vm_compute. reflexivity.
Defined.

(** C6 (start is the goal).  When the goal is the start cell, the first
    pass returns the one-coordinate path [[start]], which has no move and
    is not the no-path result. *)
Theorem astar_start_is_goal (fuel : nat) (maze : Maze) (start : Pos) :
  free maze start ->
  Solution1.astar (S fuel) maze start start = Some (Path [start])
  /\ moves_of [start] = 0
  /\ Path [start] <> NoPath.
Proof.
  intros _. split; [|split; [reflexivity | discriminate]].
  unfold Solution1.astar, Solution1.loop, Solution1.iteration.
  cbn [select_min f Node_init]. rewrite Z.ltb_irrefl.
  cbn [position Node_init]. rewrite pos_eqb_refl. reflexivity.
Qed.

Lemma astar_start_is_goal_witness :
  Solution1.astar 1 scenario_B (2, 2) (2, 2) = Some (Path [(2, 2)])
  /\ moves_of [(2, 2)] = 0
  /\ Path [(2, 2)] <> NoPath.
Proof.
  apply (astar_start_is_goal 0 scenario_B (2, 2)). split; reflexivity.
Defined.

Lemma process_children_appends (end_node cur : Node)
    (closed_list children : list Node) :
  forall open_list, exists added,
    process_children end_node cur closed_list children open_list
    = open_list ++ added.
Proof.
  unfold process_children.
  induction children as [|c rest IH]; intros open_list; simpl.
  - exists []. rewrite app_nil_r. reflexivity.
  - unfold process_child at 2.
    destruct (Node_in c closed_list); [apply IH|].
    destruct (is_in_open_list _ open_list); [apply IH|].
    destruct (IH (open_list ++ [set_scores end_node cur c])) as (added & ->).
    exists (set_scores end_node cur c :: added).
    rewrite <- app_assoc. reflexivity.
Qed.

(** C7 (which node is popped).  In every pass over a non-empty open list
    the node taken out is the leftmost entry of least [f]: all entries
    before it have a larger [f], none after it a smaller one.  The whole
    pass acts on that node, whatever its outcome: it is the node tested
    against the goal and the node whose parent chain is returned, the node
    that is expanded, and the node that joins the closed list, while the
    open list becomes the other entries in their order followed by the new
    children.  The list is thus kept in insertion order, so among the
    entries of least [f] the earliest inserted is taken. *)
Theorem pop_min_stable (maze : Maze) (end_node : Node)
    (open_list closed_list : list Node) :
  open_list <> [] ->
  exists pre cur post,
    open_list = pre ++ cur :: post
    /\ select_min open_list 0 (hd cur open_list) 0 = (cur, length pre)
    /\ pop open_list (length pre) = pre ++ post
    /\ (forall x, In x pre -> f cur < f x)
    /\ (forall x, In x post -> f cur <= f x)
    /\ Solution1.iteration maze end_node open_list closed_list
       = (if pos_eqb (position cur) (position end_node)
          then Done (Path (rev (chain cur)))
          else
            match Solution1.possible_moves cur with
            | Raise e => Done (Raised e)
            | Ok moves =>
                match gen_children maze cur moves [] with
                | Raise e => Done (Raised e)
                | Ok children =>
                    Running (process_children end_node cur
                               (closed_list ++ [cur]) children (pre ++ post))
                            (closed_list ++ [cur])
                end
            end)
    /\ (forall children,
          exists added,
            process_children end_node cur (closed_list ++ [cur]) children
              (pre ++ post)
            = pre ++ post ++ added)
    /\ (forall open_list' closed_list',
          Solution1.iteration maze end_node open_list closed_list
          = Running open_list' closed_list' ->
          closed_list' = closed_list ++ [cur]
          /\ exists added, open_list' = pre ++ post ++ added)
    /\ (forall path,
          Solution1.iteration maze end_node open_list closed_list
          = Done (Path path) ->
          position cur = position end_node /\ path = rev (chain cur))
    /\ Solution1.iteration maze end_node open_list closed_list <> Done NoPath.
Proof.
  intros Hne. destruct open_list as [|first rest]; [congruence|]. clear Hne.
  destruct (select_min (first :: rest) 0 first 0) as [cur idx] eqn:Esel.
  pose proof Esel as Hspec. apply select_min_spec in Hspec.
  destruct Hspec as (pre & post & E & El & Hpre & Hpost).
  exists pre, cur, post. subst idx.
  assert (Happ : forall children,
             exists added,
               process_children end_node cur (closed_list ++ [cur]) children
                 (pre ++ post)
               = pre ++ post ++ added).
  { intros children.
    destruct (process_children_appends end_node cur (closed_list ++ [cur])
                children (pre ++ post)) as (added & ->).
    exists added. rewrite app_assoc. reflexivity. }
  assert (Hit : Solution1.iteration maze end_node (first :: rest) closed_list
                = (if pos_eqb (position cur) (position end_node)
                   then Done (Path (rev (chain cur)))
                   else
                     match Solution1.possible_moves cur with
                     | Raise e => Done (Raised e)
                     | Ok moves =>
                         match gen_children maze cur moves [] with
                         | Raise e => Done (Raised e)
                         | Ok children =>
                             Running (process_children end_node cur
                                        (closed_list ++ [cur]) children
                                        (pre ++ post))
                                     (closed_list ++ [cur])
                         end
                     end)).
  { unfold Solution1.iteration. rewrite Esel. rewrite E, pop_middle.
    reflexivity. }
  split; [exact E|]. split; [exact Esel|].
  split; [rewrite E; apply pop_middle|]. split; [exact Hpre|].
  split; [exact Hpost|]. split; [exact Hit|]. split; [exact Happ|].
  rewrite Hit.
  destruct (pos_eqb (position cur) (position end_node)) eqn:Eg.
  - apply pos_eqb_eq in Eg. split; [discriminate|]. split; [|discriminate].
    intros path H. inversion H. auto.
  - destruct (Solution1.possible_moves cur) as [moves|e];
      [|split; [discriminate | split; discriminate]].
    destruct (gen_children maze cur moves []) as [children|e];
      [|split; [discriminate | split; discriminate]].
    split; [|split; discriminate].
    intros o' c' H. inversion H; subst. split; [reflexivity|]. apply Happ.
Qed.

Lemma pop_min_stable_witness :
  exists pre cur post,
    three_open = pre ++ cur :: post
    /\ select_min three_open 0 (hd cur three_open) 0 = (cur, length pre)
    /\ pop three_open (length pre) = pre ++ post
    /\ (forall x, In x pre -> f cur < f x)
    /\ (forall x, In x post -> f cur <= f x)
    /\ Solution1.iteration scenario_B (Node_init None (0, 1) None)
         three_open []
       = (if pos_eqb (position cur) (position (Node_init None (0, 1) None))
          then Done (Path (rev (chain cur)))
          else
            match Solution1.possible_moves cur with
            | Raise e => Done (Raised e)
            | Ok moves =>
                match gen_children scenario_B cur moves [] with
                | Raise e => Done (Raised e)
                | Ok children =>
                    Running (process_children (Node_init None (0, 1) None) cur
                               ([] ++ [cur]) children (pre ++ post))
                            ([] ++ [cur])
                end
            end)
    /\ (forall children,
          exists added,
            process_children (Node_init None (0, 1) None) cur ([] ++ [cur])
              children (pre ++ post)
            = pre ++ post ++ added)
    /\ (forall open_list' closed_list',
          Solution1.iteration scenario_B (Node_init None (0, 1) None)
            three_open []
          = Running open_list' closed_list' ->
          closed_list' = [] ++ [cur]
          /\ exists added, open_list' = pre ++ post ++ added)
    /\ (forall path,
          Solution1.iteration scenario_B (Node_init None (0, 1) None)
            three_open []
          = Done (Path path) ->
          position cur = position (Node_init None (0, 1) None)
          /\ path = rev (chain cur))
    /\ Solution1.iteration scenario_B (Node_init None (0, 1) None)
         three_open []
       <> Done NoPath.
Proof.
  apply (pop_min_stable scenario_B (Node_init None (0, 1) None) three_open []).
  discriminate.
Defined.

(** The pass of the witness above pops the second entry, the first of the
    two of least [f], and, that entry being at the goal, returns its chain. *)
Example three_open_goal_pass :
  select_min three_open 0 (node_with_f (0, 0) 5) 0 = (node_with_f (0, 1) 3, 1%nat)
  /\ Solution1.iteration scenario_B (Node_init None (0, 1) None) three_open []
     = Done (Path [(0, 1)]).
Proof. split; reflexivity. Qed.

(** C8 (successor headings).  The start node, which has no direction, is
    offered Up, Right, Down, Left in that order; a node that arrived with
    heading [hd] is offered [hd] and then its clockwise successor, the turn
    table being the cycle Up, Right, Down, Left, Up. *)
Theorem possible_moves_contract :
  (forall n, direction n = None ->
             Solution1.possible_moves n = Ok [UP; RIGHT; DOWN; LEFT])
  /\ (forall n hd, direction n = Some hd -> In hd DIRECTIONS ->
                   Solution1.possible_moves n = Ok [hd; turnRight hd]
                   /\ dict_get turn_right_map hd = Ok (turnRight hd))
  /\ turnRight UP = RIGHT /\ turnRight RIGHT = DOWN
  /\ turnRight DOWN = LEFT /\ turnRight LEFT = UP.
Proof.
  split; [|split; [|repeat split; reflexivity]].
  - intros n E. unfold Solution1.possible_moves. rewrite E. reflexivity.
  - intros n hd E Hin. unfold Solution1.possible_moves. rewrite E.
    rewrite (dict_get_turn_right hd Hin). split; reflexivity.
Qed.

Lemma possible_moves_contract_witness :
  Solution1.possible_moves (Node_init None (3, 4) (Some DOWN))
  = Ok [DOWN; turnRight DOWN]
  /\ dict_get turn_right_map DOWN = Ok (turnRight DOWN).
Proof.
  apply (proj1 (proj2 possible_moves_contract)
           (Node_init None (3, 4) (Some DOWN)) DOWN).
  - reflexivity.
  - simpl. auto.
Defined.

Lemma possible_moves_agree (n : Node) :
  Solution1.possible_moves n = GroupEltonys.possible_moves n.
Proof.
  unfold Solution1.possible_moves, GroupEltonys.possible_moves.
  destruct (direction n); reflexivity.
Qed.

Lemma iteration_agree (maze : Maze) (end_node : Node)
    (open_list closed_list : list Node) :
  Solution1.iteration maze end_node open_list closed_list
  = GroupEltonys.iteration maze end_node open_list closed_list.
Proof.
  unfold Solution1.iteration, GroupEltonys.iteration.
  destruct open_list as [|first rest]; [reflexivity|].
  destruct (select_min (first :: rest) 0 first 0) as [cur idx].
  rewrite possible_moves_agree. reflexivity.
Qed.

Lemma loop_agree (fuel : nat) (maze : Maze) (end_node : Node) :
  forall open_list closed_list,
    Solution1.loop fuel maze end_node open_list closed_list
    = GroupEltonys.loop fuel maze end_node open_list closed_list.
Proof.
  induction fuel as [|fuel IH]; intros open_list closed_list; [reflexivity|].
  cbn [Solution1.loop GroupEltonys.loop]. rewrite iteration_agree.
  destruct (GroupEltonys.iteration maze end_node open_list closed_list);
    [apply IH | reflexivity].
Qed.

(** C9 (the two files agree).  [astar] of [solution1.py] and [astar] of
    [maze_solution_group_eltonys.py] give the same result on every input. *)
Theorem astar_files_agree (fuel : nat) (maze : Maze) (start end_ : Pos) :
  Solution1.astar fuel maze start end_ = GroupEltonys.astar fuel maze start end_.
Proof. unfold Solution1.astar, GroupEltonys.astar. apply loop_agree. Qed.


(** C4 (closed states stay closed).  [closed_list] records the popped
    nodes in the order they were popped.  After any number of passes no two
    of them share a (position, direction) state, and the node that the next
    pass pops has a state that is not yet in the closed list. *)
Theorem closed_state_never_popped_again (n : nat) (maze : Maze)
    (start end_ : Pos) (open_list closed_list : list Node) :
  lists_after n maze (Node_init None end_ None)
    [Node_init None start None] [] = Some (open_list, closed_list) ->
  NoDup (map state closed_list)
  /\ forall first rest cur idx,
       open_list = first :: rest ->
       select_min open_list 0 first 0 = (cur, idx) ->
       ~ In (state cur) (map state closed_list).
Proof.
  intros H.
  apply (lists_after_Inv maze start end_) in H; [|left; auto].
  destruct H as [[-> ->] | (F & Ho & Hc & _)].
  - split; [constructor | intros ? ? ? ? _ _ []].
  - split; [apply (co_nodup _ _ _ _ Hc)|].
    intros first rest cur idx E Hsel. rewrite E in Hsel.
    apply select_min_spec in Hsel.
    destruct Hsel as (pre & post & E' & _).
    assert (Hin : In cur open_list).
    { rewrite E, E'. apply in_or_app. right. left. reflexivity. }
    intros Hcl. apply in_map_iff in Hcl. destruct Hcl as (c & Es & Hc').
    apply (oo_disj _ _ _ _ _ _ Ho cur c Hin Hc'). auto.
Qed.

Lemma closed_state_never_popped_again_witness :
  NoDup (map state (snd scenario_B_after_5))
  /\ forall first rest cur idx,
       fst scenario_B_after_5 = first :: rest ->
       select_min (fst scenario_B_after_5) 0 first 0 = (cur, idx) ->
       ~ In (state cur) (map state (snd scenario_B_after_5)).
Proof.
  apply (closed_state_never_popped_again 5 scenario_B (0, 0) (2, 0)).
  vm_compute. reflexivity.
Defined.

(** C5 (termination).  On a rectangular grid [astar] ends after at most as
    many passes as there are (position, direction) states plus one: with
    that much fuel it returns a path, or the no-path result of the emptied
    open list, whether or not the goal can be reached. *)
Theorem astar_terminates (fuel : nat) (maze : Maze) (start end_ : Pos) :
  rectangular maze ->
  (state_bound maze < fuel)%nat ->
  exists r, Solution1.astar fuel maze start end_ = Some r
            /\ (r = NoPath \/ exists path, r = Path path).
Proof.
  intros Hrect Hfuel. unfold Solution1.astar.
  assert (HI : Inv maze start end_ [Node_init None start None] [])
    by (left; auto).
  destruct (loop_terminates maze start end_ fuel _ _ HI) as (r & Hr).
  { simpl. lia. }
  exists r. split; [exact Hr|].
  apply (loop_result maze start end_) in Hr; [|exact HI].
  destruct r as [path | | e]; [right; eauto | left; reflexivity|].
  destruct Hr as [_ Hr]. contradiction.
Qed.

Lemma astar_terminates_witness :
  exists r, Solution1.astar 40 [[0; 1]; [1; 0]] (0, 0) (1, 1) = Some r
            /\ (r = NoPath \/ exists path, r = Path path).
Proof.
  apply (astar_terminates 40 [[0; 1]; [1; 0]] (0, 0) (1, 1)).
  - reflexivity.
  - vm_compute. lia.
Defined.

(** ** The shape of one pass, and runs seen pass by pass *)

Lemma iteration_running_shape (maze : Maze) (end_node : Node)
    (open_list closed_list open_list' closed_list' : list Node) :
  Solution1.iteration maze end_node open_list closed_list
  = Running open_list' closed_list' ->
  exists pre cur post moves children,
    open_list = pre ++ cur :: post
    /\ (forall x, In x pre -> f cur < f x)
    /\ (forall x, In x post -> f cur <= f x)
    /\ position cur <> position end_node
    /\ Solution1.possible_moves cur = Ok moves
    /\ gen_children maze cur moves [] = Ok children
    /\ closed_list' = closed_list ++ [cur]
    /\ open_list' = process_children end_node cur (closed_list ++ [cur])
                      children (pre ++ post).
Proof.
  unfold Solution1.iteration.
  destruct open_list as [|first rest]; [discriminate|].
  destruct (select_min (first :: rest) 0 first 0) as [cur idx] eqn:Esel.
  apply select_min_spec in Esel.
  destruct Esel as (pre & post & E & El & Hpre & Hpost).
  rewrite E, <- El, pop_middle.
  destruct (pos_eqb (position cur) (position end_node)) eqn:Eg; [discriminate|].
  apply pos_eqb_neq in Eg.
  destruct (Solution1.possible_moves cur) as [moves|e] eqn:Em; [|discriminate].
  destruct (gen_children maze cur moves []) as [children|e] eqn:Ec;
    [|discriminate].
  intros H. inversion H; subst.
  exists pre, cur, post, moves, children. repeat split; auto.
Qed.

Lemma iteration_path_shape (maze : Maze) (end_node : Node)
    (open_list closed_list : list Node) (path : list Pos) :
  Solution1.iteration maze end_node open_list closed_list = Done (Path path) ->
  exists pre cur post,
    open_list = pre ++ cur :: post
    /\ position cur = position end_node
    /\ path = rev (chain cur).
Proof.
  unfold Solution1.iteration.
  destruct open_list as [|first rest]; [discriminate|].
  destruct (select_min (first :: rest) 0 first 0) as [cur idx] eqn:Esel.
  apply select_min_spec in Esel.
  destruct Esel as (pre & post & E & El & Hpre & Hpost).
  destruct (pos_eqb (position cur) (position end_node)) eqn:Eg.
  - apply pos_eqb_eq in Eg. intros H. inversion H; subst.
    exists pre, cur, post. auto.
  - destruct (Solution1.possible_moves cur) as [moves|e]; [|discriminate].
    destruct (gen_children maze cur moves []); discriminate.
Qed.

Lemma iteration_no_path_shape (maze : Maze) (end_node : Node)
    (open_list closed_list : list Node) :
  Solution1.iteration maze end_node open_list closed_list = Done NoPath ->
  open_list = [].
Proof.
  unfold Solution1.iteration.
  destruct open_list as [|first rest]; [reflexivity|].
  destruct (select_min (first :: rest) 0 first 0) as [cur idx].
  destruct (pos_eqb (position cur) (position end_node)); [discriminate|].
  destruct (Solution1.possible_moves cur) as [moves|e]; [|discriminate].
  destruct (gen_children maze cur moves []); discriminate.
Qed.

(** A result of the loop is the result of its last pass, taken on the lists
    that the passes before it left. *)
Lemma loop_last_pass (maze : Maze) (end_node : Node) (fuel : nat) :
  forall open_list closed_list r,
    Solution1.loop fuel maze end_node open_list closed_list = Some r ->
    exists n open_list' closed_list',
      lists_after n maze end_node open_list closed_list
      = Some (open_list', closed_list')
      /\ Solution1.iteration maze end_node open_list' closed_list' = Done r.
Proof.
  induction fuel as [|fuel IH]; intros o c r H; [discriminate|].
  cbn [Solution1.loop] in H.
  destruct (Solution1.iteration maze end_node o c) as [o1 c1 | r1] eqn:Eit.
  - destruct (IH o1 c1 r H) as (n & o' & c' & Hn & Hd).
    exists (S n), o', c'. split; [|exact Hd].
    cbn [lists_after]. rewrite Eit. exact Hn.
  - inversion H; subst r1. exists 0%nat, o, c. split; [reflexivity | exact Eit].
Qed.

(** A property of the two lists that holds at the start and that every
    running pass passes on holds after any number of passes. *)
Lemma lists_after_invariant (maze : Maze) (start end_ : Pos)
    (P : list Node -> list Node -> Prop) :
  P [Node_init None start None] [] ->
  (forall o c o' c',
      Inv maze start end_ o c -> P o c ->
      Solution1.iteration maze (Node_init None end_ None) o c = Running o' c' ->
      P o' c') ->
  forall n o c,
    lists_after n maze (Node_init None end_ None)
      [Node_init None start None] [] = Some (o, c) ->
    P o c.
Proof.
  intros H0 Hstep n.
  assert (Hgen : forall o0 c0 o c,
             Inv maze start end_ o0 c0 -> P o0 c0 ->
             lists_after n maze (Node_init None end_ None) o0 c0 = Some (o, c) ->
             P o c).
  { induction n as [|n IH]; intros o0 c0 o c HI HP H; cbn [lists_after] in H.
    - inversion H; subst. exact HP.
    - pose proof (iteration_Inv maze start end_ o0 c0 HI) as Hit.
      destruct (Solution1.iteration maze (Node_init None end_ None) o0 c0)
        as [o1 c1 | r] eqn:Eit; [|discriminate].
      destruct Hit as [Hs _].
      apply (IH o1 c1 o c); [right; exact Hs | | exact H].
      eapply Hstep; eauto. }
  intros o c H.
  apply (Hgen [Node_init None start None] [] o c); auto. left. auto.
Qed.

(** The members of the open list after the children were inserted. *)
Lemma process_children_members (end_node cur : Node)
    (closed_list children : list Node) :
  forall open_list n,
    In n (process_children end_node cur closed_list children open_list) ->
    In n open_list
    \/ exists c, In c children /\ n = set_scores end_node cur c.
Proof.
  unfold process_children.
  induction children as [|c rest IH]; intros open_list n H; simpl in H; [auto|].
  apply IH in H. destruct H as [H | (c' & Hc' & ->)].
  - unfold process_child in H.
    destruct (Node_in c closed_list); [auto|].
    destruct (is_in_open_list _ open_list); [auto|].
    apply in_app_or in H. destruct H as [H | [<- | []]]; [auto|].
    right. exists c. split; [left; reflexivity | reflexivity].
  - right. exists c'. split; [right; exact Hc' | reflexivity].
Qed.

(** What a running pass does to the two lists, under the invariant: the
    popped node is a node of the run of least [f], it joins the closed
    list, the open list stays well formed relative to its [f], and every
    node that is new in the open list is a child of the popped node. *)
Lemma running_pass (maze : Maze) (start end_ : Pos)
    (o c o' c' : list Node) :
  Inv maze start end_ o c ->
  Solution1.iteration maze (Node_init None end_ None) o c = Running o' c' ->
  exists cur,
    In cur o
    /\ wf_node maze start end_ cur
    /\ (forall x, In x o -> f cur <= f x)
    /\ c' = c ++ [cur]
    /\ open_ok maze start end_ (f cur) c' o'
    /\ (forall n, In n o' ->
          (In n o /\ n <> cur)
          \/ exists d, n = set_scores (Node_init None end_ None) cur
                             (child_of cur d)).
Proof.
  intros HI Hit.
  destruct (iteration_running_shape _ _ _ _ _ _ Hit)
    as (pre & cur & post & moves & children
        & E & Hpre & Hpost & Hgoal & Hm & Hc & -> & ->).
  simpl in Hgoal.
  assert (Hin : In cur o) by (rewrite E; apply in_or_app; right; left; auto).
  assert (Hmin : forall x, In x o -> f cur <= f x).
  { intros x Hx. rewrite E in Hx. apply in_app_or in Hx.
    destruct Hx as [Hx | [<- | Hx]]; [specialize (Hpre x Hx) | | auto]; lia. }
  assert (Hstage : wf_node maze start end_ cur
                   /\ open_ok maze start end_ (f cur) (c ++ [cur]) (pre ++ post)).
  { destruct HI as [[Eo ->] | Hs].
    - rewrite Eo in E. destruct pre as [|x pre]; simpl in E.
      + inversion E; subst. split; [constructor | apply open_ok_nil].
      + inversion E as [[Ex E']]. destruct pre; discriminate.
    - rewrite E in Hs.
      destruct (pop_ok maze start end_ pre post cur c Hs Hpre Hpost Hgoal)
        as (_ & Ho1 & _).
      split; [|exact Ho1].
      destruct Hs as (F & Ho & _). apply (oo_wf _ _ _ _ _ _ Ho).
      apply in_or_app. right. left. reflexivity. }
  destruct Hstage as [Hw Ho1].
  rewrite (possible_moves_wf maze start end_ cur Hw) in Hm.
  inversion Hm; subst moves.
  pose proof (gen_children_spec maze cur _ _ _ Hc) as Hspec.
  assert (Hch : forall ch, In ch children ->
                  exists d, In d (successorHeadings (direction cur))
                            /\ free maze (add_pos (position cur) d)
                            /\ ch = child_of cur d).
  { intros ch Hx. apply Hspec in Hx. destruct Hx as [[] | Hx]. exact Hx. }
  destruct (process_children_ok maze start end_ cur (c ++ [cur]) children
              Hw Hch (pre ++ post) Ho1) as (Ho' & _ & _).
  exists cur. split; [exact Hin|]. split; [exact Hw|]. split; [exact Hmin|].
  split; [reflexivity|]. split; [exact Ho'|].
  intros n Hn. apply process_children_members in Hn.
  destruct Hn as [Hn | (ch & Hx & ->)].
  - left. split.
    + rewrite E. apply in_app_or in Hn. apply in_or_app.
      destruct Hn; [left | right; right]; auto.
    + intros ->. apply (oo_disj _ _ _ _ _ _ Ho1 cur cur Hn); auto.
      apply in_or_app. right. left. reflexivity.
  - right. destruct (Hch ch Hx) as (d & _ & _ & ->). exists d. reflexivity.
Qed.

(** ** Further properties of [astar] *)

(** When the open list has emptied, no walk under the rule reaches the goal. *)
Lemma exhausted_no_path (maze : Maze) (start end_ : Pos)
    (closed_list : list Node) (path : list Pos) :
  Inv maze start end_ [] closed_list ->
  ~ constrained_path maze start end_ path.
Proof.
  intros [[E _] | Hs]; [discriminate|].
  intros (rest & -> & Hl & Hlast).
  pose proof (legal_reach maze start rest None start 0
                (reach_start maze start) Hl) as Hr.
  rewrite <- (final_last rest None start start) in Hlast.
  destruct (frontier maze start end_ [] closed_list _ _ Hs Hr)
    as [Hin | (o & [] & _)].
  apply in_map_iff in Hin. destruct Hin as (c & Ec & Hin).
  destruct Hs as (F & _ & Hc & _).
  apply (co_goal _ _ _ _ Hc c Hin).
  rewrite <- Hlast, <- Ec. reflexivity.
Qed.

Lemma loop_no_path_sound (fuel : nat) (maze : Maze) (start end_ : Pos)
    (path : list Pos) :
  Solution1.astar fuel maze start end_ = Some NoPath ->
  ~ constrained_path maze start end_ path.
Proof.
  unfold Solution1.astar. intros H.
  destruct (loop_last_pass _ _ _ _ _ _ H) as (n & o & c & Hn & Hd).
  apply iteration_no_path_shape in Hd. subst o.
  apply (lists_after_Inv maze start end_) in Hn; [|left; auto].
  eapply exhausted_no_path; eauto.
Qed.

(** X1 (the no-path result is sound).  On a rectangular grid, when [astar]
    returns [None], there is no path from the start to the goal under the
    forward / turn-right rule at all. *)
Theorem astar_no_path_sound (fuel : nat) (maze : Maze) (start end_ : Pos) :
  rectangular maze ->
  Solution1.astar fuel maze start end_ = Some NoPath ->
  forall path, ~ constrained_path maze start end_ path.
Proof. intros _ H path. eapply loop_no_path_sound; eauto. Qed.

Lemma astar_no_path_sound_witness :
  Solution1.astar 10 [[0; 1]; [1; 0]] (0, 0) (1, 1) = Some NoPath
  /\ forall path, ~ constrained_path [[0; 1]; [1; 0]] (0, 0) (1, 1) path.
Proof.
  split; [vm_compute; reflexivity|].
  apply (astar_no_path_sound 10 [[0; 1]; [1; 0]] (0, 0) (1, 1)).
  - reflexivity.
  - vm_compute. reflexivity.
Defined.

(** X2 (completeness).  On a rectangular grid, when some path under the
    rule leads from the start to the goal, [astar] returns a path, and that
    path has no more moves than the given one. *)
Theorem astar_complete (fuel : nat) (maze : Maze) (start end_ : Pos)
    (other : list Pos) :
  rectangular maze ->
  (state_bound maze < fuel)%nat ->
  constrained_path maze start end_ other ->
  exists path, Solution1.astar fuel maze start end_ = Some (Path path)
               /\ moves_of path <= moves_of other.
Proof.
  intros Hrect Hfuel Hother.
  assert (HI : Inv maze start end_ [Node_init None start None] [])
    by (left; auto).
  destruct (loop_terminates maze start end_ fuel _ _ HI) as (r & Hr).
  { simpl. lia. }
  change (Solution1.astar fuel maze start end_ = Some r) in Hr.
  destruct r as [path | | e].
  - exists path. split; [exact Hr|]. eapply astar_minimal; eauto.
  - exfalso. eapply loop_no_path_sound; eauto.
  - exfalso. unfold Solution1.astar in Hr.
    apply (loop_result maze start end_) in Hr; [|exact HI].
    destruct Hr as [_ Hr]. contradiction.
Qed.

Lemma scenario_B_path_constrained :
  constrained_path scenario_B (0, 0) (2, 0) scenario_B_path.
Proof.
  apply (astar_constrained_path 40). vm_compute. reflexivity.
Qed.

Lemma astar_complete_witness :
  exists path, Solution1.astar 40 scenario_B (0, 0) (2, 0) = Some (Path path)
               /\ moves_of path <= moves_of scenario_B_path.
Proof.
  apply (astar_complete 40 scenario_B (0, 0) (2, 0) scenario_B_path).
  - reflexivity.
  - vm_compute. lia.
  - exact scenario_B_path_constrained.
Defined.

(** X3 (exceptions).  The only exception that can leave [astar] is the
    [IndexError] of a cell missing from a short row: the turn table lookup
    never fails, and on a rectangular grid nothing is raised. *)
Theorem astar_raises_only_IndexError (fuel : nat) (maze : Maze)
    (start end_ : Pos) (e : exn) :
  Solution1.astar fuel maze start end_ = Some (Raised e) ->
  e = IndexError /\ ~ rectangular maze.
Proof.
  unfold Solution1.astar. intros H.
  apply (loop_result maze start end_) in H; [exact H | left; auto].
Qed.

Lemma astar_raises_only_IndexError_witness :
  IndexError = IndexError /\ ~ rectangular [[0; 0]; [0]].
Proof.
  apply (astar_raises_only_IndexError 10 [[0; 0]; [0]] (0, 0) (1, 1)).
  vm_compute. reflexivity.
Defined.

(** ** Invariants of the two lists *)

(** X4 (one open node per state).  After any number of passes the open
    list holds at most one node for each (position, direction) state, none
    of them for a state that is already closed, so the two lists together
    never hold more nodes than the grid has states. *)
Theorem open_list_one_node_per_state (n : nat) (maze : Maze)
    (start end_ : Pos) (open_list closed_list : list Node) :
  lists_after n maze (Node_init None end_ None)
    [Node_init None start None] [] = Some (open_list, closed_list) ->
  NoDup (map state open_list)
  /\ (forall o c, In o open_list -> In c closed_list -> state o <> state c)
  /\ (length open_list + length closed_list <= state_bound maze)%nat.
Proof.
  intros H. apply (lists_after_Inv maze start end_) in H; [|left; auto].
  destruct H as [[-> ->] | (F & Ho & Hc & _)].
  - split; [constructor; [intros [] | constructor]|].
    split; [intros o c _ []|]. unfold state_bound. simpl. lia.
  - split; [apply (oo_nodup _ _ _ _ _ _ Ho)|].
    split; [apply (oo_disj _ _ _ _ _ _ Ho)|].
    rewrite <- length_app, <- (universe_length maze start).
    rewrite <- (length_map state (open_list ++ closed_list)).
    apply NoDup_incl_length.
    + rewrite map_app. apply NoDup_app.
      * apply (oo_nodup _ _ _ _ _ _ Ho).
      * apply (co_nodup _ _ _ _ Hc).
      * intros s Hso Hsc. apply in_map_iff in Hso, Hsc.
        destruct Hso as (o & Eo & Hino). destruct Hsc as (c & Ec & Hinc).
        apply (oo_disj _ _ _ _ _ _ Ho o c Hino Hinc). congruence.
    + intros s Hin. apply in_map_iff in Hin. destruct Hin as (x & <- & Hin).
      apply wf_universe with (end_ := end_).
      apply in_app_or in Hin. destruct Hin as [Hin | Hin].
      * apply (oo_wf _ _ _ _ _ _ Ho); auto.
      * apply (co_wf _ _ _ _ Hc); auto.
Qed.

Lemma open_list_one_node_per_state_witness :
  NoDup (map state (fst scenario_B_after_3))
  /\ (forall o c, In o (fst scenario_B_after_3) ->
                  In c (snd scenario_B_after_3) -> state o <> state c)
  /\ (length (fst scenario_B_after_3) + length (snd scenario_B_after_3)
      <= state_bound scenario_B)%nat.
Proof.
  apply (open_list_one_node_per_state 3 scenario_B (0, 0) (2, 0)).
  vm_compute. reflexivity.
Defined.

Lemma StronglySorted_snoc (l : list Z) (y : Z) :
  StronglySorted Z.le l -> (forall x, In x l -> x <= y) ->
  StronglySorted Z.le (l ++ [y]).
Proof.
  intros Hs Hy. induction Hs as [|a l Hs IH Ha]; simpl.
  - constructor; constructor.
  - constructor.
    + apply IH. intros x Hx. apply Hy. right; exact Hx.
    + apply Forall_app. split; [exact Ha|].
      constructor; [|constructor]. apply Hy. left; reflexivity.
Qed.

(** X5 (pops in order of [f]).  The nodes are popped in non-decreasing
    order of [f]: the [f] values along the closed list never go down, and
    no node waiting in the open list has a smaller [f] than a closed one. *)
Theorem popped_f_nondecreasing (n : nat) (maze : Maze)
    (start end_ : Pos) (open_list closed_list : list Node) :
  lists_after n maze (Node_init None end_ None)
    [Node_init None start None] [] = Some (open_list, closed_list) ->
  StronglySorted Z.le (map f closed_list)
  /\ forall c o, In c closed_list -> In o open_list -> f c <= f o.
Proof.
  apply (lists_after_invariant maze start end_
           (fun o c => StronglySorted Z.le (map f c)
                       /\ forall x y, In x c -> In y o -> f x <= f y)).
  - split; [constructor | intros x y []].
  - intros o c o' c' HI [Hs Hle] Hit.
    destruct (running_pass maze start end_ o c o' c' HI Hit)
      as (cur & Hin & Hw & Hmin & -> & Ho' & _).
    split.
    + rewrite map_app. simpl. apply StronglySorted_snoc; [exact Hs|].
      intros v Hv. apply in_map_iff in Hv. destruct Hv as (x & <- & Hx). auto.
    + intros x y Hx Hy. pose proof (oo_f _ _ _ _ _ _ Ho' y Hy) as Hfy.
      apply in_app_or in Hx. destruct Hx as [Hx | [<- | []]]; [|exact Hfy].
      specialize (Hle x cur Hx Hin). lia.
Qed.

Lemma popped_f_nondecreasing_witness :
  StronglySorted Z.le (map f (snd scenario_B_after_3))
  /\ forall c o, In c (snd scenario_B_after_3) ->
                 In o (fst scenario_B_after_3) -> f c <= f o.
Proof.
  apply (popped_f_nondecreasing 3 scenario_B (0, 0) (2, 0)).
  vm_compute. reflexivity.
Defined.

(** The parent of every node of the two lists is a closed node. *)
Lemma parents_closed (n : nat) (maze : Maze) (start end_ : Pos)
    (open_list closed_list : list Node) :
  lists_after n maze (Node_init None end_ None)
    [Node_init None start None] [] = Some (open_list, closed_list) ->
  forall x p, In x (open_list ++ closed_list) -> parent x = Some p ->
              In p closed_list.
Proof.
  apply (lists_after_invariant maze start end_
           (fun o c => forall x p, In x (o ++ c) -> parent x = Some p ->
                                   In p c)).
  - intros x p [<- | []]. discriminate.
  - intros o c o' c' HI HP Hit.
    destruct (running_pass maze start end_ o c o' c' HI Hit)
      as (cur & Hin & Hw & _ & -> & _ & Hnew).
    intros x p Hx Hp. apply in_or_app.
    apply in_app_or in Hx. destruct Hx as [Hx | Hx].
    + destruct (Hnew x Hx) as [[Hxo _] | (d & ->)].
      * left. apply (HP x p); [apply in_or_app; left; exact Hxo | exact Hp].
      * right. simpl in Hp. inversion Hp. left. reflexivity.
    + apply in_app_or in Hx. destruct Hx as [Hx | [<- | []]].
      * left. apply (HP x p); [apply in_or_app; right; exact Hx | exact Hp].
      * left. apply (HP cur p); [apply in_or_app; left; exact Hin | exact Hp].
Qed.

Lemma chain_length (maze : Maze) (start end_ : Pos) (x : Node) :
  wf_node maze start end_ x -> g x = moves_of (chain x).
Proof.
  intros Hw. destruct (wf_path maze start end_ x Hw) as (rest & E & _ & _ & El).
  unfold moves_of, len in *. rewrite <- (length_rev (chain x)), E.
  simpl length. lia.
Qed.

(** X6 (what a node carries).  After any number of passes every node of the
    open and the closed list is the start node, or the child of a closed
    node along an allowed move into a free cell, with [g] one more than its
    parent's, [h] the Manhattan distance to the goal and [f = g + h]; and
    [g] is the number of moves of the node's parent chain. *)
Theorem node_scores_invariant (n : nat) (maze : Maze) (start end_ : Pos)
    (open_list closed_list : list Node) (node : Node) :
  lists_after n maze (Node_init None end_ None)
    [Node_init None start None] [] = Some (open_list, closed_list) ->
  In node (open_list ++ closed_list) ->
  g node = moves_of (chain node)
  /\ (node = Node_init None start None
      \/ exists p d,
           parent node = Some p /\ In p closed_list
           /\ In d (successorHeadings (direction p))
           /\ direction node = Some d
           /\ position node = add_pos (position p) d
           /\ free maze (position node)
           /\ g node = g p + 1
           /\ h node = manhattan (position node) end_
           /\ f node = g node + h node).
Proof.
  intros H Hin.
  pose proof (parents_closed n maze start end_ _ _ H node) as Hpar.
  apply (lists_after_Inv maze start end_) in H; [|left; auto].
  assert (Hw : wf_node maze start end_ node).
  { destruct H as [[-> ->] | (F & Ho & Hc & _)].
    - destruct Hin as [<- | []]. constructor.
    - apply in_app_or in Hin. destruct Hin as [Hin | Hin].
      + apply (oo_wf _ _ _ _ _ _ Ho); auto.
      + apply (co_wf _ _ _ _ Hc); auto. }
  split; [eapply chain_length; eauto|].
  destruct Hw as [|p d Hp Hd Hf]; [left; reflexivity|].
  right. exists p, d. simpl. repeat split; auto; apply Hf.
Qed.

(** The node of scenario B that waits in the open list after three passes:
    at (1, 2), reached downwards in three moves, three more to go. *)
Example scenario_B_open_node_scores :
  fst scenario_B_after_3 = [scenario_B_open_node]
  /\ position scenario_B_open_node = (1, 2)
  /\ direction scenario_B_open_node = Some DOWN
  /\ g scenario_B_open_node = 3
  /\ h scenario_B_open_node = 3
  /\ f scenario_B_open_node = 6
  /\ scenario_B_open_node <> Node_init None (0, 0) None.
Proof. repeat split; try reflexivity. discriminate. Qed.

Lemma node_scores_invariant_witness :
  g scenario_B_open_node = moves_of (chain scenario_B_open_node)
  /\ (scenario_B_open_node = Node_init None (0, 0) None
      \/ exists p d,
           parent scenario_B_open_node = Some p
           /\ In p (snd scenario_B_after_3)
           /\ In d (successorHeadings (direction p))
           /\ direction scenario_B_open_node = Some d
           /\ position scenario_B_open_node = add_pos (position p) d
           /\ free scenario_B (position scenario_B_open_node)
           /\ g scenario_B_open_node = g p + 1
           /\ h scenario_B_open_node
              = manhattan (position scenario_B_open_node) (2, 0)
           /\ f scenario_B_open_node
              = g scenario_B_open_node + h scenario_B_open_node).
Proof.
  apply (node_scores_invariant 3 scenario_B (0, 0) (2, 0)
           (fst scenario_B_after_3) (snd scenario_B_after_3)).
  - vm_compute. reflexivity.
  - vm_compute. left. reflexivity.
Defined.

(** ** The states along a returned path *)

Lemma NoDup_map_injective {A B} (fn : A -> B) (l : list A) (a b : A) :
  NoDup (map fn l) -> In a l -> In b l -> fn a = fn b -> a = b.
Proof.
  induction l as [|x l IH]; intros Hnd Ha Hb E; [contradiction|].
  simpl in Hnd. inversion Hnd as [|? ? Hx Hl]; subst.
  destruct Ha as [-> | Ha], Hb as [-> | Hb]; auto.
  - exfalso. apply Hx. rewrite E. apply in_map. exact Hb.
  - exfalso. apply Hx. rewrite <- E. apply in_map. exact Ha.
Qed.

Lemma ancestors_wf (maze : Maze) (start end_ : Pos) (x : Node) :
  wf_node maze start end_ x ->
  forall a, In a (ancestors x) -> wf_node maze start end_ a /\ g a <= g x.
Proof.
  induction 1 as [|p d Hp IH Hd Hf]; intros a Ha; simpl in Ha.
  - destruct Ha as [<- | []]. split; [apply wf_start | apply Z.le_refl].
  - destruct Ha as [<- | Ha].
    + split; [apply wf_child; auto | apply Z.le_refl].
    + destruct (IH a Ha) as [Hw Hg]. split; [exact Hw | simpl; lia].
Qed.

Lemma ancestors_closed (maze : Maze) (start end_ : Pos)
    (closed_list : list Node) (x : Node) :
  (forall y p, In y closed_list -> parent y = Some p -> In p closed_list) ->
  wf_node maze start end_ x ->
  In x closed_list ->
  incl (ancestors x) closed_list.
Proof.
  intros Hpar. induction 1 as [|p d Hp IH Hd Hf]; intros Hin a Ha; simpl in Ha.
  - destruct Ha as [<- | []]. exact Hin.
  - destruct Ha as [<- | Ha]; [exact Hin|].
    apply IH; [|exact Ha]. apply (Hpar _ p Hin). reflexivity.
Qed.

Lemma ancestors_states_NoDup (maze : Maze) (start end_ : Pos)
    (closed_list : list Node) (x : Node) :
  (forall y p, In y closed_list -> parent y = Some p -> In p closed_list) ->
  NoDup (map state closed_list) ->
  wf_node maze start end_ x ->
  In x closed_list ->
  NoDup (map state (ancestors x)).
Proof.
  intros Hpar Hnd. induction 1 as [|p d Hp IH Hd Hf]; intros Hin.
  - simpl. constructor; [intros [] | constructor].
  - set (x := set_scores (Node_init None end_ None) p (child_of p d)) in *.
    assert (Hpin : In p closed_list) by (apply (Hpar x p Hin); reflexivity).
    change (NoDup (state x :: map state (ancestors p))).
    constructor; [|apply IH; exact Hpin].
    intros Hs. apply in_map_iff in Hs. destruct Hs as (a & Es & Ha).
    assert (a = x).
    { apply (NoDup_map_injective state closed_list); auto.
      eapply ancestors_closed; eauto. }
    destruct (ancestors_wf maze start end_ p Hp a Ha) as [_ Hg].
    subst a. simpl in Hg. lia.
Qed.

Lemma walk_states_snoc (rest : list Pos) :
  forall prev p q od d,
    final prev p rest = (q, od) ->
    walk_states prev p (rest ++ [add_pos q d])
    = walk_states prev p rest ++ [(add_pos q d, Some d)].
Proof.
  induction rest as [|x rest IH]; intros prev p q od d Hfin; simpl in *.
  - inversion Hfin; subst. rewrite step_of_add. reflexivity.
  - rewrite (IH _ _ _ _ d Hfin). reflexivity.
Qed.

Lemma walk_states_length (rest : list Pos) :
  forall prev p, length (walk_states prev p rest) = S (length rest).
Proof.
  induction rest as [|x rest IH]; intros prev p; simpl; [reflexivity|].
  rewrite IH. reflexivity.
Qed.

Lemma chain_ancestors_length (maze : Maze) (start end_ : Pos) (x : Node) :
  wf_node maze start end_ x -> length (chain x) = length (ancestors x).
Proof.
  induction 1 as [|p d Hp IH Hd Hf]; simpl; [reflexivity|].
  simpl in IH. rewrite IH. reflexivity.
Qed.

(** The states along the rebuilt path are the states of the node's
    ancestors, oldest first. *)
Lemma wf_walk_states (maze : Maze) (start end_ : Pos) (x : Node) :
  wf_node maze start end_ x ->
  states_of_path (rev (chain x)) = rev (map state (ancestors x)).
Proof.
  induction 1 as [|p d Hp IH Hd Hf]; [reflexivity|].
  destruct (wf_path maze start end_ p Hp) as (rest & E1 & _ & E3 & _).
  simpl chain. simpl ancestors. simpl rev. rewrite E1 in *. simpl in IH.
  simpl. rewrite (walk_states_snoc rest None start (position p) (direction p) d);
    [|exact E3].
  rewrite IH. reflexivity.
Qed.

(** X7 (no state twice on a path).  A returned path never enters the same
    cell with the same heading twice, although it may cross a cell more
    than once; so it has fewer moves than the grid has (position,
    direction) states. *)
Theorem astar_path_states_distinct (fuel : nat) (maze : Maze)
    (start end_ : Pos) (path : list Pos) :
  Solution1.astar fuel maze start end_ = Some (Path path) ->
  NoDup (states_of_path path)
  /\ moves_of path < Z.of_nat (state_bound maze).
Proof.
  unfold Solution1.astar. intros H.
  destruct (loop_last_pass _ _ _ _ _ _ H) as (n & o & c & Hn & Hd).
  apply iteration_path_shape in Hd.
  destruct Hd as (pre & cur & post & E & _ & ->).
  assert (Hin : In cur o) by (rewrite E; apply in_or_app; right; left; auto).
  pose proof (parents_closed n maze start end_ o c Hn) as Hpar.
  apply (lists_after_Inv maze start end_) in Hn; [|left; auto].
  assert (Hw : wf_node maze start end_ cur).
  { destruct Hn as [[-> ->] | (F & Ho & _)].
    - destruct Hin as [<- | []]. constructor.
    - apply (oo_wf _ _ _ _ _ _ Ho); auto. }
  assert (Hnd : NoDup (map state (ancestors cur))).
  { destruct Hw as [|p d Hp Hd Hf]; [constructor; [intros [] | constructor]|].
    set (x := set_scores (Node_init None end_ None) p (child_of p d)) in *.
    destruct Hn as [[-> ->] | (F & Ho & Hc & _)];
      [destruct Hin as [Hin | []]; discriminate|].
    assert (Hpin : In p c)
      by (apply (Hpar x p); [apply in_or_app; left; auto | reflexivity]).
    assert (Hparc : forall y q, In y c -> parent y = Some q -> In q c).
    { intros y q Hy. apply Hpar. apply in_or_app. right. exact Hy. }
    change (NoDup (state x :: map state (ancestors p))).
    constructor.
    - intros Hs. apply in_map_iff in Hs. destruct Hs as (a & Es & Ha).
      apply (oo_disj _ _ _ _ _ _ Ho x a Hin); [|auto].
      eapply ancestors_closed; eauto.
    - eapply ancestors_states_NoDup; eauto. apply (co_nodup _ _ _ _ Hc). }
  rewrite (wf_walk_states maze start end_ cur Hw).
  split; [apply NoDup_rev; exact Hnd|].
  assert (Hlen : (length (map state (ancestors cur)) <= state_bound maze)%nat).
  { rewrite <- (universe_length maze start).
    apply NoDup_incl_length; [exact Hnd|].
    intros s Hs. apply in_map_iff in Hs. destruct Hs as (a & <- & Ha).
    apply wf_universe with (end_ := end_).
    apply (ancestors_wf maze start end_ cur Hw a Ha). }
  rewrite length_map in Hlen.
  unfold moves_of, len.
  rewrite length_rev, (chain_ancestors_length maze start end_ cur Hw). lia.
Qed.

Lemma astar_path_states_distinct_witness :
  NoDup (states_of_path scenario_B_path)
  /\ moves_of scenario_B_path < Z.of_nat (state_bound scenario_B).
Proof.
  apply (astar_path_states_distinct 40 scenario_B (0, 0) (2, 0)).
  vm_compute. reflexivity.
Defined.

(** ** The heuristic, the markers, the node class and the turn table *)

(** X8 (the heuristic never overestimates).  The Manhattan distance that
    [child.h] stores is at most the number of moves of any walk under the
    rule from that position to the goal. *)
Theorem manhattan_admissible (maze : Maze) (rest : list Pos) :
  forall prev p end_,
    heading_ok prev ->
    legal_from maze prev p rest ->
    last (p :: rest) p = end_ ->
    manhattan p end_ <= len rest.
Proof.
  induction rest as [|q rest IH]; intros prev p end_ Hh Hl Hlast.
  - simpl in Hlast. subst. rewrite manhattan_same. reflexivity.
  - pose proof (legal_from_heading _ _ _ _ _ Hh Hl) as Hd.
    destruct Hl as (_ & _ & Hl).
    assert (Hq : manhattan q end_ <= len rest).
    { apply (IH (Some (step_of p q)) q end_); [right; eauto | exact Hl|].
      rewrite <- Hlast.
      rewrite <- (final_last rest (Some (step_of p q)) q q).
      rewrite <- (final_last (q :: rest) prev p p). reflexivity. }
    pose proof (manhattan_step p end_ (step_of p q) Hd) as Hs.
    rewrite add_step_of in Hs. unfold len in *. simpl length. lia.
Qed.

Lemma manhattan_admissible_witness :
  manhattan (0, 0) (0, 2) <= len [(0, 1); (0, 2)].
Proof.
  apply (manhattan_admissible scenario_B [(0, 1); (0, 2)] None (0, 0) (0, 2)).
  - left. reflexivity.
  - simpl. unfold free. repeat split; vm_compute; auto.
  - reflexivity.
Defined.

Lemma within_range_relabel (fn : Z -> Z) (maze : Maze) (p : Pos) :
  within_range (map (map fn) maze) p = within_range maze p.
Proof.
  unfold within_range, len. rewrite length_map.
  destruct maze as [|row maze]; simpl; [reflexivity|].
  rewrite length_map. reflexivity.
Qed.

Lemma cell_relabel (fn : Z -> Z) (maze : Maze) (p : Pos) :
  cell (map (map fn) maze) p = (v <- cell maze p ;; Ok (fn v)).
Proof.
  unfold cell, index. rewrite nth_error_map.
  destruct (nth_error maze (Z.to_nat (fst p))) as [row|]; simpl; [|reflexivity].
  rewrite nth_error_map.
  destruct (nth_error row (Z.to_nat (snd p))); reflexivity.
Qed.

Lemma gen_children_relabel (fn : Z -> Z) (maze : Maze) (cur : Node)
    (moves : list Dir) :
  (forall v, fn v = 0 <-> v = 0) ->
  forall acc,
    gen_children (map (map fn) maze) cur moves acc
    = gen_children maze cur moves acc.
Proof.
  intros Hfn. induction moves as [|d rest IH]; intros acc; simpl; [reflexivity|].
  rewrite within_range_relabel, cell_relabel.
  destruct (within_range maze (add_pos (position cur) d)); simpl; [|apply IH].
  destruct (cell maze (add_pos (position cur) d)) as [v|e]; simpl; [|reflexivity].
  assert (E : (fn v =? 0) = (v =? 0)).
  { destruct (Z.eqb_spec v 0) as [->|N].
    - apply Z.eqb_eq. apply Hfn. reflexivity.
    - apply Z.eqb_neq. intros Hv. apply N. apply Hfn. exact Hv. }
  rewrite E. destruct (v =? 0); simpl; apply IH.
Qed.

Lemma loop_relabel (fn : Z -> Z) (maze : Maze) (end_node : Node) (fuel : nat) :
  (forall v, fn v = 0 <-> v = 0) ->
  forall open_list closed_list,
    Solution1.loop fuel (map (map fn) maze) end_node open_list closed_list
    = Solution1.loop fuel maze end_node open_list closed_list.
Proof.
  intros Hfn. induction fuel as [|fuel IH]; intros o c; [reflexivity|].
  cbn [Solution1.loop].
  assert (E : Solution1.iteration (map (map fn) maze) end_node o c
              = Solution1.iteration maze end_node o c).
  { unfold Solution1.iteration. destruct o as [|first rest]; [reflexivity|].
    destruct (select_min (first :: rest) 0 first 0) as [cur idx].
    destruct (pos_eqb (position cur) (position end_node)); [reflexivity|].
    destruct (Solution1.possible_moves cur) as [moves|e]; [|reflexivity].
    rewrite (gen_children_relabel fn maze cur moves Hfn). reflexivity. }
  rewrite E.
  destruct (Solution1.iteration maze end_node o c); [apply IH | reflexivity].
Qed.

(** X9 (only zero matters).  [astar] tells cell markers apart only by
    whether they are 0: replacing every marker through a map that keeps 0
    and sends nothing else to 0 leaves the result unchanged. *)
Theorem astar_only_tests_zero (fuel : nat) (fn : Z -> Z) (maze : Maze)
    (start end_ : Pos) :
  (forall v, fn v = 0 <-> v = 0) ->
  Solution1.astar fuel (map (map fn) maze) start end_
  = Solution1.astar fuel maze start end_.
Proof. intros Hfn. unfold Solution1.astar. apply loop_relabel. exact Hfn. Qed.

Lemma astar_only_tests_zero_witness :
  Solution1.astar 40 (map (map (fun v => 7 * v)) scenario_B) (0, 0) (2, 0)
  = Solution1.astar 40 scenario_B (0, 0) (2, 0).
Proof.
  apply (astar_only_tests_zero 40 (fun v => 7 * v) scenario_B (0, 0) (2, 0)).
  intros v. lia.
Defined.

(** X10 (node equality and hash).  [Node.__eq__] is an equivalence
    relation that looks at position and direction only, not at the parent
    or the scores, and nodes that are equal have the same [__hash__]. *)
Theorem Node_eq_hash_contract (hash : Pos * option Dir -> Z) :
  (forall a, Node_eq a a = true)
  /\ (forall a b, Node_eq a b = Node_eq b a)
  /\ (forall a b c, Node_eq a b = true -> Node_eq b c = true ->
                    Node_eq a c = true)
  /\ (forall a b par g' h' f',
        Node_eq (mkNode par (position a) (direction a) g' h' f') b
        = Node_eq a b)
  /\ (forall a b, Node_eq a b = true -> Node_hash hash a = Node_hash hash b).
Proof.
  split; [|split; [|split; [|split]]].
  - intros a. apply Node_eq_state. reflexivity.
  - intros a b. destruct (Node_eq a b) eqn:E1, (Node_eq b a) eqn:E2; auto.
    + apply Node_eq_state in E1. symmetry in E1. apply Node_eq_state in E1.
      congruence.
    + apply Node_eq_state in E2. symmetry in E2. apply Node_eq_state in E2.
      congruence.
  - intros a b c E1 E2. apply Node_eq_state in E1, E2. apply Node_eq_state.
    congruence.
  - intros a b par g' h' f'. reflexivity.
  - intros a b E. apply Node_eq_state in E. unfold Node_hash.
    unfold state in E. rewrite E. reflexivity.
Qed.

Lemma Node_eq_hash_contract_witness :
  Node_hash (fun s => fst (fst s) + snd (fst s))
    (mkNode None (1, 2) (Some UP) 3 4 7)
  = Node_hash (fun s => fst (fst s) + snd (fst s))
      (Node_init None (1, 2) (Some UP)).
Proof.
  apply (proj2 (proj2 (proj2 (proj2
           (Node_eq_hash_contract (fun s => fst (fst s) + snd (fst s))))))).
  reflexivity.
Defined.

(** X11 (the turn table).  For each of the four headings the lookup in
    [turn_right_map] gives the heading rotated clockwise, (dr, dc) to
    (dc, -dr), which is a heading again; for every other key the lookup
    raises [KeyError]. *)
Theorem turn_right_map_rotation (d : Dir) :
  (In d DIRECTIONS ->
   dict_get turn_right_map d = Ok (snd d, - fst d)
   /\ In (snd d, - fst d) DIRECTIONS)
  /\ (~ In d DIRECTIONS -> dict_get turn_right_map d = Raise KeyError).
Proof.
  split.
  - intros H. apply in_DIRECTIONS in H.
    destruct H as [-> | [-> | [-> | ->]]]; split;
      try reflexivity; apply in_DIRECTIONS; auto.
  - intros H. rewrite in_DIRECTIONS in H. cbn [dict_get turn_right_map].
    destruct (pos_eqb d UP) eqn:E1; [apply pos_eqb_eq in E1; tauto|].
    destruct (pos_eqb d RIGHT) eqn:E2; [apply pos_eqb_eq in E2; tauto|].
    destruct (pos_eqb d DOWN) eqn:E3; [apply pos_eqb_eq in E3; tauto|].
    destruct (pos_eqb d LEFT) eqn:E4; [apply pos_eqb_eq in E4; tauto|].
    reflexivity.
Qed.

Lemma turn_right_map_rotation_witness :
  dict_get turn_right_map (1, 1) = Raise KeyError.
Proof.
  apply (proj2 (turn_right_map_rotation (1, 1))).
  rewrite in_DIRECTIONS. intros [H | [H | [H | H]]]; discriminate.
Defined.

(** ** The driver and the second file *)

(** X12 (truth value of the result).  What [astar] returns is true in the
    sense of [if path:] exactly when it is a path: a returned list is never
    empty, so the test cannot mistake a found path for [None]. *)
Theorem astar_result_truth (fuel : nat) (maze : Maze) (start end_ : Pos)
    (r : result) :
  Solution1.astar fuel maze start end_ = Some r ->
  (truth_value r = true <-> exists path, r = Path path).
Proof.
  intros H. destruct r as [path | | e].
  - destruct (astar_constrained_path _ _ _ _ _ H) as (rest & -> & _).
    simpl. split; eauto.
  - simpl. split; [discriminate | intros (p & Hp); discriminate].
  - simpl. split; [discriminate | intros (p & Hp); discriminate].
Qed.

Lemma astar_result_truth_witness :
  truth_value (Path [(2, 2)]) = true <-> exists path, Path [(2, 2)] = Path path.
Proof.
  apply (astar_result_truth 1 scenario_B (2, 2) (2, 2)).
  vm_compute. reflexivity.
Defined.

Lemma main_search :
  exists path,
    Solution1.astar 626 maze1 start1 end1 = Some (Path path)
    /\ moves_of path = 90.
Proof. eexists. split; vm_compute; reflexivity. Qed.

(** X13 (what [main] reports).  Whenever [main] ends it has printed
    "Path found:" and then a path from (11, 10) to (11, 2) under the rule
    with 90 moves, which no other such path undercuts; it never prints
    "No path found!" and never ends in an exception; and it ends within
    the number of states of [maze1] plus one passes. *)
Theorem main_reports_shortest_path (fuel : nat) :
  (forall out,
      Solution1.main fuel = Some out ->
      exists path,
        out = Ok [print_str Messages.path_found; print_path path]
        /\ constrained_path maze1 start1 end1 path
        /\ moves_of path = 90
        /\ forall other, constrained_path maze1 start1 end1 other ->
                         90 <= moves_of other)
  /\ ((state_bound maze1 < fuel)%nat -> Solution1.main fuel <> None).
Proof.
  destruct main_search as (p & Hrun & Hlen).
  assert (Hsame : forall r, Solution1.astar fuel maze1 start1 end1 = Some r ->
                            r = Path p).
  { intros r Hr. destruct (Nat.le_gt_cases fuel 626) as [Hle | Hgt].
    - apply (astar_more_fuel fuel 626) in Hr; [congruence | exact Hle].
    - apply (astar_more_fuel 626 fuel) in Hrun; [congruence | lia]. }
  assert (Hp : exists q rest, p = q :: rest).
  { destruct p as [|q rest]; [discriminate | eauto]. }
  split.
  - intros out Hout. unfold Solution1.main in Hout.
    destruct (Solution1.astar fuel maze1 start1 end1) as [r|] eqn:E;
      [|discriminate].
    pose proof (Hsame r eq_refl) as ->.
    destruct Hp as (q & rest & ->). simpl in Hout. inversion Hout; subst out.
    exists (q :: rest). split; [reflexivity|].
    split; [eapply astar_constrained_path; eauto|].
    split; [exact Hlen|].
    intros other Ho. rewrite <- Hlen. eapply astar_minimal; eauto.
  - intros Hfuel. apply (astar_more_fuel 626 fuel) in Hrun;
      [|change (state_bound maze1) with 625%nat in Hfuel; lia].
    unfold Solution1.main. rewrite Hrun.
    destruct Hp as (q & rest & ->). simpl. discriminate.
Qed.

Lemma main_reports_shortest_path_witness : Solution1.main 626 <> None.
Proof.
  apply (proj2 (main_reports_shortest_path 626)). vm_compute. lia.
Defined.

(** X14 (the second file).  On a rectangular grid [astar] of
    [maze_solution_group_eltonys.py] returns a path under the rule with the
    least number of moves, returns [None] only when no such path exists,
    and raises nothing; on any grid an exception it raises is the
    [IndexError] of a non-rectangular grid; and its [main] reports what the
    [main] of [solution1.py] reports. *)
Theorem GroupEltonys_astar_correct (fuel fuel_main : nat) (maze : Maze)
    (start end_ : Pos) (r : result) :
  GroupEltonys.astar fuel maze start end_ = Some r ->
  (rectangular maze ->
   match r with
   | Path path =>
       constrained_path maze start end_ path
       /\ forall other, constrained_path maze start end_ other ->
                        moves_of path <= moves_of other
   | NoPath => forall path, ~ constrained_path maze start end_ path
   | Raised e => False
   end)
  /\ (forall e, r = Raised e -> e = IndexError /\ ~ rectangular maze)
  /\ GroupEltonys.main fuel_main = Solution1.main fuel_main.
Proof.
  assert (E : forall k m s e',
             GroupEltonys.astar k m s e' = Solution1.astar k m s e').
  { intros k m s e'. unfold GroupEltonys.astar, Solution1.astar.
    symmetry. apply loop_agree. }
  rewrite E. intros H.
  assert (Hraise : forall e, r = Raised e -> e = IndexError /\ ~ rectangular maze).
  { intros e ->. unfold Solution1.astar in H.
    apply (loop_result maze start end_) in H; [exact H | left; auto]. }
  split; [|split; [exact Hraise|]].
  - intros Hrect. destruct r as [path | | e].
    + split; [eapply astar_constrained_path; eauto|].
      intros other Ho. eapply astar_minimal; eauto.
    + intros path. eapply loop_no_path_sound; eauto.
    + destruct (Hraise e eq_refl) as [_ Hn]. contradiction.
  - unfold GroupEltonys.main, Solution1.main. rewrite E. reflexivity.
Qed.

Lemma GroupEltonys_astar_correct_witness :
  ((rectangular scenario_B ->
    constrained_path scenario_B (0, 0) (2, 0) scenario_B_path
    /\ forall other, constrained_path scenario_B (0, 0) (2, 0) other ->
                     moves_of scenario_B_path <= moves_of other)
   /\ (forall e, Path scenario_B_path = Raised e ->
                 e = IndexError /\ ~ rectangular scenario_B)
   /\ GroupEltonys.main 626 = Solution1.main 626)
  /\ rectangular scenario_B
  /\ GroupEltonys.main 626 <> None.
Proof.
  split; [|split; [reflexivity | vm_compute; discriminate]].
  apply (GroupEltonys_astar_correct 40 626 scenario_B (0, 0) (2, 0)
           (Path scenario_B_path)).
  vm_compute. reflexivity.
Defined.

(** ** A grid without cells *)

Lemma within_range_no_cells (maze : Maze) (p : Pos) :
  maze = [] \/ hd [] maze = [] -> within_range maze p = false.
Proof.
  intros H. destruct (within_range maze p) eqn:E; [|reflexivity].
  unfold within_range, len in E.
  rewrite !andb_true_iff, !Z.leb_le, !Z.ltb_lt in E.
  destruct H as [H | H]; [subst maze | rewrite H in E]; simpl in E; lia.
Qed.

Lemma gen_children_no_cells (maze : Maze) (cur : Node) (moves : list Dir) :
  maze = [] \/ hd [] maze = [] ->
  forall acc, gen_children maze cur moves acc = Ok acc.
Proof.
  intros H. induction moves as [|d rest IH]; intros acc; simpl; [reflexivity|].
  rewrite (within_range_no_cells maze _ H). simpl. apply IH.
Qed.

(** X15 (grid without cells).  On an empty grid, or one whose first row is
    empty, [astar] raises nothing although it mentions [maze[0]]: the start
    node is expanded to no child and the second pass returns [None], unless
    the goal is the start itself. *)
Theorem astar_grid_without_cells (fuel : nat) (maze : Maze) (start end_ : Pos) :
  maze = [] \/ hd [] maze = [] ->
  start <> end_ ->
  Solution1.astar (S (S fuel)) maze start end_ = Some NoPath.
Proof.
  intros H Hne. unfold Solution1.astar. cbn [Solution1.loop].
  unfold Solution1.iteration at 1. cbn [select_min f Node_init].
  rewrite Z.ltb_irrefl. cbn [pop app position Node_init].
  apply pos_eqb_neq in Hne. rewrite Hne.
  unfold Solution1.possible_moves. cbn [direction Node_init].
  rewrite (gen_children_no_cells maze _ _ H). reflexivity.
Qed.

Lemma astar_grid_without_cells_witness :
  Solution1.astar 2 [] (0, 0) (3, 4) = Some NoPath.
Proof.
  apply (astar_grid_without_cells 0 [] (0, 0) (3, 4)).
  - left. reflexivity.
  - discriminate.
Defined.

(** ** No validation before the search *)







(** The three kinds of invalid input, run: a wall goal gives the no-path
    result, a short row the [IndexError], a goal that is the wall start
    the one-cell path. *)
Example invalid_inputs_run :
  Solution1.astar 10 [[0; 1]] (0, 0) (0, 1) = Some NoPath
  /\ Solution1.astar 10 [[0; 0]; [0]] (0, 0) (1, 1) = Some (Raised IndexError)
  /\ Solution1.astar 10 [[1; 0]] (0, 0) (0, 0) = Some (Path [(0, 0)]).
Proof. repeat split; vm_compute; reflexivity. Qed.
